(** * tester.py: an argparse front end and a greeting loop

    The script builds an [argparse.ArgumentParser] with three required
    options, calls [parse_args] on the command line and then prints one
    greeting per index of [range(args.clone_count)].

    The development has three layers:
    - [Py]: the few Python built-ins the script relies on ([int], [str],
      [range], [print], exceptions and process exit);
    - [argparse]: the option parser of the standard library, as shipped
      with CPython 3.11, restricted to what [add_argument] is used for
      here (optional arguments with [nargs] None or 0, the actions
      [store], [store_true] and [help]);
    - [tester]: the script itself.

    Modelling conventions.  A Python [str] is a Rocq [string] holding its
    UTF-8 encoding; standard output is the text written so far.  Only the
    ASCII decimal digits and ASCII white space are recognised by [int] and
    by the negative-number test of argparse.  Standard error is kept as a
    list of structured diagnostics rather than as rendered text, because
    the messages embed [repr] of user strings.  Writes to the standard
    streams are assumed to succeed. *)

From Stdlib Require Import ZArith String Ascii List Bool Lia.
From Stdlib Require Import DecimalString DecimalPos DecimalZ.
From stdpp Require Import gmap strings list_monad.
From Equations Require Import Equations.
From Equations.Prop Require Import Logic.
Import ListNotations.

Local Open Scope string_scope.
Local Open Scope list_scope.
Local Open Scope Z_scope.

(* ===================================================================== *)
(** * Python built-ins *)
(* ===================================================================== *)

Module Py.

(** ** Strings *)

Definition LF : ascii := "010"%char.

Definition startswith (s p : string) : bool := String.prefix p s.

Fixpoint contains (c : ascii) (s : string) : bool :=
  match s with
  | EmptyString => false
  | String x s' => Ascii.eqb x c || contains c s'
  end.

(** [s.count(c)]: the number of occurrences of a character. *)
Fixpoint count (c : ascii) (s : string) : nat :=
  match s with
  | EmptyString => O
  | String x s' => ((if Ascii.eqb x c then 1 else 0) + count c s')%nat
  end.

(** [s.split(c, 1)] for a string known to contain [c]: the text before
    the first [c] and the text after it. *)
Fixpoint split1 (c : ascii) (s : string) : string * string :=
  match s with
  | EmptyString => (EmptyString, EmptyString)
  | String x s' =>
      if Ascii.eqb x c then (EmptyString, s')
      else let '(a, b) := split1 c s' in (String x a, b)
  end.

Fixpoint join (sep : string) (l : list string) : string :=
  match l with
  | [] => ""
  | [x] => x
  | x :: rest => x +:+ sep +:+ join sep rest
  end.

(** The lines of a text stream: maximal runs of characters each ended by
    a line feed, plus a last unterminated run when there is one. *)
Fixpoint lines_from (cur : string) (s : string) : list string :=
  match s with
  | EmptyString => if String.eqb cur "" then [] else [cur]
  | String c s' =>
      if Ascii.eqb c LF then cur :: lines_from "" s'
      else lines_from (cur +:+ String c "") s'
  end.

Definition lines (s : string) : list string := lines_from "" s.

(** ** [int(str)] and [str(int)] *)

(** [Py_ISSPACE] on ASCII: space, \t, \n, \v, \f, \r. *)
Definition isspace (c : ascii) : bool :=
  let n := nat_of_ascii c in
  (Nat.eqb n 32 || (Nat.leb 9 n && Nat.leb n 13))%bool.

Definition digit_value (c : ascii) : option Z :=
  let n := nat_of_ascii c in
  if (Nat.leb 48 n && Nat.leb n 57)%bool then Some (Z.of_nat n - 48) else None.

Definition isdigit (c : ascii) : bool :=
  match digit_value c with Some _ => true | None => false end.

Fixpoint lstrip (s : string) : string :=
  match s with
  | String c s' => if isspace c then lstrip s' else s
  | EmptyString => EmptyString
  end.

Fixpoint all_space (s : string) : bool :=
  match s with
  | String c s' => isspace c && all_space s'
  | EmptyString => true
  end.

(** The digit scan of [PyLong_FromString] in base 10: digits separated by
    single underscores.  Returns the value, the number of digits and the
    unread rest; fails on a doubled or trailing underscore. *)
Fixpoint scan_digits (s : string) (acc : Z) (ndigits : nat) (prev_underscore : bool)
  : option (Z * nat * string) :=
  match s with
  | String c s' =>
      match digit_value c with
      | Some d => scan_digits s' (10 * acc + d) (S ndigits) false
      | None =>
          if Ascii.eqb c "_" then
            if prev_underscore then None else scan_digits s' acc ndigits true
          else if prev_underscore then None else Some (acc, ndigits, s)
      end
  | EmptyString => if prev_underscore then None else Some (acc, ndigits, s)
  end.

(** The value of a decimal numeral read after an accumulated prefix:
    what [scan_digits] computes on the numeral's digits. *)
Fixpoint uint_value (d : Decimal.uint) (acc : Z) : Z :=
  match d with
  | Decimal.Nil => acc
  | Decimal.D0 l => uint_value l (10 * acc + 0)
  | Decimal.D1 l => uint_value l (10 * acc + 1)
  | Decimal.D2 l => uint_value l (10 * acc + 2)
  | Decimal.D3 l => uint_value l (10 * acc + 3)
  | Decimal.D4 l => uint_value l (10 * acc + 4)
  | Decimal.D5 l => uint_value l (10 * acc + 5)
  | Decimal.D6 l => uint_value l (10 * acc + 6)
  | Decimal.D7 l => uint_value l (10 * acc + 7)
  | Decimal.D8 l => uint_value l (10 * acc + 8)
  | Decimal.D9 l => uint_value l (10 * acc + 9)
  end.

(** [sys.int_info.default_max_str_digits]. *)
Definition int_max_str_digits : nat := 4300.

(** [int(s)]: optional white space, optional sign, digits with single
    underscores between them, optional white space.  [None] stands for
    [ValueError]. *)
Definition int (s : string) : option Z :=
  let s1 := lstrip s in
  let '(negative, s2) :=
    match s1 with
    | String "+" r => (false, r)
    | String "-" r => (true, r)
    | _ => (false, s1)
    end in
  match s2 with
  | String "_" _ => None
  | _ =>
      match scan_digits s2 0 0 false with
      | Some (v, n, rest) =>
          if Nat.eqb n 0 then None
          else if Nat.ltb int_max_str_digits n then None
          else if all_space rest then Some (if negative then - v else v)
          else None
      | None => None
      end
  end.

(** [str(i)] for an integer: its decimal numeral.  (The limit on the
    number of digits also applies to [str], but the script only prints
    indices below a count that [int] has accepted.) *)
Definition str (i : Z) : string := NilZero.string_of_int (Z.to_int i).

(** ** Values stored in a namespace *)

(** [EmptyList] is Python's [[]]: the only list argparse can produce for
    the actions modelled here. *)
Inductive value :=
| NoneVal
| Bool (b : bool)
| Str (s : string)
| Int (i : Z)
| EmptyList.

(** [format(v, "")], what an f-string replacement field renders. *)
Definition format (v : value) : string :=
  match v with
  | NoneVal => "None"
  | Bool true => "True"
  | Bool false => "False"
  | Str s => s
  | Int i => str i
  | EmptyList => "[]"
  end.

(** ** Exceptions, the process and its streams *)

Inductive argument_message :=
| ExpectedOneArgument
| IgnoredExplicitArgument (explicit_arg : string)
| InvalidValue (type_name : string) (arg_string : string).

Inductive exception :=
| SystemExit (status : Z)
| ArgumentError (argument_name : string) (message : argument_message)
| TypeError (message : string)
| AttributeError (name : string).

(** The text of [parser.error(message)]. *)
Inductive error_message :=
| ArgumentErrorMessage (argument_name : string) (message : argument_message)
| AmbiguousOption (option : string) (matches : list string)
| RequiredArguments (names : list string)
| UnrecognizedArguments (extras : list string).

(** What reaches standard error: the usage line followed by
    [prog: error: message], or the traceback of an uncaught exception. *)
Inductive diagnostic :=
| UsageError (prog : string) (message : error_message)
| Traceback (exc : exception).

(** The observable world: the two output streams and [external], which
    stands for everything else outside the process (files, sockets,
    environment). *)
Record world {E : Type} := World {
  stdout : string;
  stderr : list diagnostic;
  external : E
}.
Arguments world : clear implicits.

Inductive result (A : Type) :=
| Return (a : A)
| Raise (e : exception).
Arguments Return {A} a.
Arguments Raise {A} e.

(** A computation: a world transformer that returns or raises. *)
Definition proc (E A : Type) : Type := world E -> world E * result A.

Section Proc.
Context {E : Type}.

Definition ret {A} (a : A) : proc E A := fun w => (w, Return a).

Definition raise {A} (e : exception) : proc E A := fun w => (w, Raise e).

Definition bind {A B} (m : proc E A) (k : A -> proc E B) : proc E B :=
  fun w =>
    match m w with
    | (w', Return a) => k a w'
    | (w', Raise e) => (w', Raise e)
    end.

(** [try: m  except ArgumentError as err: h err]. *)
Definition catch_argument_error {A} (m : proc E A)
    (h : string -> argument_message -> proc E A) : proc E A :=
  fun w =>
    match m w with
    | (w', Raise (ArgumentError name msg)) => h name msg w'
    | r => r
    end.

Definition write_stdout (s : string) : proc E unit :=
  fun w => (World E (stdout w +:+ s) (stderr w) (external w), Return tt).

Definition write_stderr (d : diagnostic) : proc E unit :=
  fun w => (World E (stdout w) (stderr w ++ [d]) (external w), Return tt).

(** [print(s)]: the text and a line feed, on standard output. *)
Definition print (s : string) : proc E unit :=
  write_stdout (s +:+ String LF "").

(** [sys.exit(status)]. *)
Definition exit {A} (status : Z) : proc E A := raise (SystemExit status).
End Proc.

Declare Scope proc_scope.
Delimit Scope proc_scope with proc.
Notation "'let*' x ':=' m 'in' k" := (bind m (fun x => k))
  (at level 10, x name, m at level 200, k at level 200) : proc_scope.
Notation "m ';;' k" := (bind m (fun _ => k))
  (at level 100, k at level 200, right associativity) : proc_scope.

(** ** [range] and the [for] statement *)

(** The iterator of [range(stop)]: the next index and the bound. *)
Record range_iterator := RangeIterator { index : Z; stop : Z }.

(** [iter(range(n))]. *)
Definition range (n : Z) : range_iterator := RangeIterator 0 n.

(** [next(it)]: [None] stands for [StopIteration]. *)
Definition next (it : range_iterator) : option (Z * range_iterator) :=
  if index it <? stop it
  then Some (index it, RangeIterator (index it + 1) (stop it))
  else None.

(** The number of indices an iterator still has to yield. *)
Definition remaining (it : range_iterator) : nat :=
  Z.to_nat (stop it - index it).

(** The indices an iterator has still to yield. *)
Definition pending (it : range_iterator) : list Z :=
  map (fun k => index it + Z.of_nat k) (seq 0 (remaining it)).

(** [for i in it: body(i)]: call [next] until it is exhausted, running
    the body on each index; an exception in the body leaves the loop. *)
Equations? for_in {E : Type} (it : range_iterator) (body : Z -> proc E unit)
  : proc E unit by wf (remaining it) lt :=
  for_in it body with inspect (next it) := {
    | exist _ (Some (i, it')) Hnext => bind (body i) (fun _ => for_in it' body);
    | exist _ None _ => ret tt }.
Proof.
  unfold next in Hnext. destruct (index it <? stop it) eqn:Hlt; [|discriminate].
  injection Hnext as _ <-. apply Z.ltb_lt in Hlt.
  unfold remaining; simpl. lia.
Qed.

End Py.

(* ===================================================================== *)
(** * The argparse library *)
(* ===================================================================== *)

Module argparse.
Import Py.
Local Open Scope proc_scope.

(** ** Actions and parsers *)

(** [action="store"] (the default), [action="store_true"] and the
    [help] action every parser gets from [add_help=True]. *)
Inductive action_class := StoreAction | StoreTrueAction | HelpAction.

(** [type=None] (keep the string) and [type=int]. *)
Inductive type_func := type_none | type_int.

(** An optional argument.  [dest = None] is [SUPPRESS], the destination
    of the help action. *)
Record Action := {
  option_strings : list string;
  dest : option string;
  class : action_class;
  type : type_func;
  required : bool;
  help : string
}.

#[global] Instance action_class_eq_dec : EqDecision action_class.
Proof. solve_decision. Defined.
#[global] Instance type_func_eq_dec : EqDecision type_func.
Proof. solve_decision. Defined.
#[global] Instance Action_eq_dec : EqDecision Action.
Proof. solve_decision. Defined.

(** [action.nargs]: [None] asks for exactly one argument string, [Some 0]
    for none. *)
Definition nargs (a : Action) : option nat :=
  match class a with
  | StoreAction => None
  | StoreTrueAction | HelpAction => Some 0%nat
  end.

(** [action.default]; [None] is [SUPPRESS]. *)
Definition default (a : Action) : option value :=
  match class a with
  | StoreAction => Some NoneVal
  | StoreTrueAction => Some (Bool false)
  | HelpAction => None
  end.

Record ArgumentParser := {
  prog : string;
  description : string;
  actions : list Action
}.

(** [prefix_chars] is the default ["-"]. *)
Definition is_prefix_char (c : ascii) : bool := Ascii.eqb c "-".

(** [ArgumentParser(description=...)]: [prog] is the base name of
    [sys.argv[0]]; the help action is registered first. *)
Definition help_action : Action :=
  {| option_strings := ["-h"; "--help"];
     dest := None;
     class := HelpAction;
     type := type_none;
     required := false;
     help := "show this help message and exit" |}.

Definition new_parser (prog description : string) : ArgumentParser :=
  {| prog := prog;
     description := description;
     actions := [help_action] |}.

(** A long option string: more than one character, the second one a
    prefix character. *)
Definition is_long (s : string) : bool :=
  match s with
  | String _ (String c _) => is_prefix_char c
  | _ => false
  end.

Fixpoint lstrip_prefix_chars (s : string) : string :=
  match s with
  | String c s' => if is_prefix_char c then lstrip_prefix_chars s' else s
  | EmptyString => EmptyString
  end.

Fixpoint replace_dash (s : string) : string :=
  match s with
  | String c s' => String (if Ascii.eqb c "-" then "_"%char else c) (replace_dash s')
  | EmptyString => EmptyString
  end.

(** The destination [_get_optional_kwargs] derives from the flags: the
    first long option string, or else the first option string, without
    its leading dashes and with inner dashes turned into underscores. *)
Definition dest_of_flags (flags : list string) : string :=
  let dest_option_string :=
    match filter (fun s => is_long s = true) flags with
    | l :: _ => l
    | [] => match flags with f :: _ => f | [] => "" end
    end in
  replace_dash (lstrip_prefix_chars dest_option_string).

(** [parser.add_argument(flag, ..., action=..., type=..., required=...,
    help=...)]. *)
Definition add_argument (flags : list string) (cls : action_class)
    (ty : type_func) (req : bool) (help_text : string)
    (parser : ArgumentParser) : ArgumentParser :=
  {| prog := prog parser;
     description := description parser;
     actions := actions parser ++
                [ {| option_strings := flags;
                     dest := Some (dest_of_flags flags);
                     class := cls;
                     type := ty;
                     required := req;
                     help := help_text |} ] |}.

(** [parser._option_string_actions], in insertion order. *)
Definition _option_string_actions (parser : ArgumentParser) : list (string * Action) :=
  flat_map (fun a => map (fun s => (s, a)) (option_strings a)) (actions parser).

Fixpoint assoc (key : string) (l : list (string * Action)) : option Action :=
  match l with
  | [] => None
  | (k, a) :: rest => if String.eqb k key then Some a else assoc key rest
  end.

(** [_get_action_name]: the option strings joined by a slash. *)
Definition _get_action_name (a : Action) : string := join "/" (option_strings a).

(** ** Classifying one argument string *)

(** The triple [_parse_optional] returns: the action (or [None] for an
    unknown option), the option string and the explicit argument. *)
Record option_tuple := OptionTuple {
  ot_action : option Action;
  ot_option_string : string;
  ot_explicit_arg : option string
}.

Definition second_is_prefix_char (s : string) : bool :=
  match s with
  | String _ (String c _) => is_prefix_char c
  | _ => false
  end.

(** [_get_option_tuples]: the registered option strings that the given
    string abbreviates, or (single dash) whose first two characters it
    starts with, the rest being an attached argument. *)
Definition _get_option_tuples (parser : ArgumentParser) (option_string : string)
  : list option_tuple :=
  if second_is_prefix_char option_string then
    let '(option_prefix, explicit_arg) :=
      if contains "=" option_string
      then let '(p, e) := split1 "=" option_string in (p, Some e)
      else (option_string, None) in
    flat_map (fun '(os, a) =>
                if startswith os option_prefix
                then [OptionTuple (Some a) os explicit_arg] else [])
             (_option_string_actions parser)
  else
    let short_option_prefix := substring 0 2 option_string in
    let short_explicit_arg :=
      substring 2 (String.length option_string - 2) option_string in
    flat_map (fun '(os, a) =>
                if String.eqb os short_option_prefix
                then [OptionTuple (Some a) os (Some short_explicit_arg)]
                else if startswith os option_string
                then [OptionTuple (Some a) os None]
                else [])
             (_option_string_actions parser).

Fixpoint skip_digits (s : string) : string :=
  match s with
  | String c s' => if isdigit c then skip_digits s' else s
  | EmptyString => EmptyString
  end.

(** One or more digits up to the end of the string, where the end may be
    followed by a single line feed (the [$] of [re]). *)
Definition digits_to_end (s : string) : bool :=
  match skip_digits s with
  | EmptyString => negb (String.eqb s "")
  | String c EmptyString => Ascii.eqb c LF && negb (String.eqb s (String c ""))
  | _ => false
  end.

(** [_negative_number_matcher]: the regular expression
    [^-\d+$|^-\d*\.\d+$]. *)
Definition _negative_number_matcher (s : string) : bool :=
  match s with
  | String "-" r =>
      digits_to_end r ||
      match skip_digits r with
      | String "." r' => digits_to_end r'
      | _ => false
      end
  | _ => false
  end.

(** [_has_negative_number_optionals]: some registered option string
    looks like a negative number. *)
Definition _has_negative_number_optionals (parser : ArgumentParser) : bool :=
  existsb (fun '(os, _) => _negative_number_matcher os) (_option_string_actions parser).

(** [_parse_optional]: [inr None] for an argument ('A'), [inr (Some t)]
    for an option ('O'), [inl m] where the source calls [self.error(m)]
    on an ambiguous abbreviation. *)
Definition _parse_optional (parser : ArgumentParser) (arg_string : string)
  : error_message + option option_tuple :=
  match arg_string with
  | EmptyString => inr None
  | String c0 tail =>
      if negb (is_prefix_char c0) then inr None
      else
        match assoc arg_string (_option_string_actions parser) with
        | Some a => inr (Some (OptionTuple (Some a) arg_string None))
        | None =>
            if String.eqb tail "" then inr None
            else
              let by_equals :=
                if contains "=" arg_string then
                  let '(os, e) := split1 "=" arg_string in
                  match assoc os (_option_string_actions parser) with
                  | Some a => Some (OptionTuple (Some a) os (Some e))
                  | None => None
                  end
                else None in
              match by_equals with
              | Some t => inr (Some t)
              | None =>
                  match _get_option_tuples parser arg_string with
                  | (_ :: _ :: _) as ts =>
                      inl (AmbiguousOption arg_string (map ot_option_string ts))
                  | [t] => inr (Some t)
                  | [] =>
                      if _negative_number_matcher arg_string
                         && negb (_has_negative_number_optionals parser)
                      then inr None
                      else if contains " " arg_string then inr None
                      else inr (Some (OptionTuple None arg_string None))
                  end
              end
        end
  end.

(** ** Help and error output *)

Definition upper_char (c : ascii) : ascii :=
  let n := nat_of_ascii c in
  if (Nat.leb 97 n && Nat.leb n 122)%bool then ascii_of_nat (n - 32) else c.

Fixpoint upper (s : string) : string :=
  match s with
  | String c s' => String (upper_char c) (upper s')
  | EmptyString => EmptyString
  end.

Fixpoint spaces (n : nat) : string :=
  match n with
  | O => ""
  | S n' => String " " (spaces n')
  end.

(** The metavar of an optional argument: its destination in upper case. *)
Definition metavar (a : Action) : string :=
  match dest a with Some d => upper d | None => "" end.

(** The part of the usage line for one action. *)
Definition usage_part (a : Action) : string :=
  let part :=
    match option_strings a, nargs a with
    | os :: _, None => os +:+ " " +:+ metavar a
    | os :: _, Some _ => os
    | [], _ => ""
    end in
  if required a then part else "[" +:+ part +:+ "]".

(** [format_usage], on a terminal wide enough for the line not to wrap. *)
Definition format_usage (parser : ArgumentParser) : string :=
  "usage: " +:+ join " " (prog parser :: map usage_part (actions parser))
  +:+ String LF "".

(** The left column of an option's help entry. *)
Definition _format_action_invocation (a : Action) : string :=
  match nargs a with
  | None => join ", " (map (fun os => os +:+ " " +:+ metavar a) (option_strings a))
  | Some _ => join ", " (option_strings a)
  end.

(** One entry of the options section, for an action with a help text in
    a parser whose longest invocation passes column 24: the help text
    starts at column 24, on the same line when the invocation is at most
    20 characters long and on the next line otherwise. *)
Definition _format_action (a : Action) : string :=
  let header := _format_action_invocation a in
  if Nat.leb (String.length header) 20 then
    "  " +:+ header +:+ spaces (20 - String.length header) +:+ "  "
    +:+ help a +:+ String LF ""
  else
    "  " +:+ header +:+ String LF "" +:+ spaces 24 +:+ help a +:+ String LF "".

(** [format_help]: usage, description and the options section, as laid
    out on the default 80-column terminal when no line needs wrapping. *)
Definition format_help (parser : ArgumentParser) : string :=
  format_usage parser +:+ String LF ""
  +:+ description parser +:+ String LF "" +:+ String LF ""
  +:+ "options:" +:+ String LF ""
  +:+ String.concat "" (map _format_action (actions parser)).

Section Parsing.
Context {E : Type}.
Variable parser : ArgumentParser.

(** [parser.exit(status)]. *)
Definition parser_exit {A} (status : Z) : proc E A := exit status.

(** [parser.error(message)]: usage and message on standard error, then
    exit status 2. *)
Definition error {A} (message : error_message) : proc E A :=
  write_stderr (UsageError (prog parser) message) ;; parser_exit 2.

(** [parser.print_help()]. *)
Definition print_help : proc E unit := write_stdout (format_help parser).

(** ** First pass: the argument pattern *)

(** One letter of [arg_strings_pattern], with the option tuple recorded
    in [option_string_indices] for an 'O'. *)
Inductive pattern :=
| pat_A
| pat_O (t : option_tuple)
| pat_dash.

(** Every string after the first ["--"] is an argument; before it each
    string is classified by [_parse_optional]. *)
Fixpoint classify (arg_strings : list string)
  : error_message + list (string * pattern) :=
  match arg_strings with
  | [] => inr []
  | s :: rest =>
      if String.eqb s "--" then
        inr ((s, pat_dash) :: map (fun a => (a, pat_A)) rest)
      else
        match _parse_optional parser s with
        | inl m => inl m
        | inr t =>
            match classify rest with
            | inl m => inl m
            | inr ps =>
                inr ((s, match t with Some t => pat_O t | None => pat_A end) :: ps)
            end
        end
  end.

(** ** Second pass: consuming options *)

Record parse_state := ParseState {
  namespace : gmap string value;
  seen_actions : list Action;
  extras : list string
}.

(** [(action, args, option_string)]. *)
Definition action_tuple : Type := Action * list string * string.

(** [_match_argument] for an optional: with [nargs=None] the pattern
    must start with an 'A'; with [nargs=0] nothing is matched. *)
Definition _match_argument (a : Action) (following : list pattern) : proc E nat :=
  match nargs a with
  | Some n => ret n
  | None =>
      match following with
      | pat_A :: _ => ret 1%nat
      | _ => raise (ArgumentError (_get_action_name a) ExpectedOneArgument)
      end
  end.

(** [_get_value]: apply the type function, turning [ValueError] into an
    [ArgumentError]. *)
Definition _get_value (a : Action) (arg_string : string) : proc E value :=
  match type a with
  | type_none => ret (Str arg_string)
  | type_int =>
      match int arg_string with
      | Some i => ret (Int i)
      | None => raise (ArgumentError (_get_action_name a)
                                     (InvalidValue "int" arg_string))
      end
  end.

Fixpoint remove_first (x : string) (l : list string) : list string :=
  match l with
  | [] => []
  | y :: rest => if String.eqb y x then rest else y :: remove_first x rest
  end.

(** [_get_values]: the first ["--"] is dropped from the argument
    strings; a single remaining string of a [nargs=None] action is
    converted, anything else yields a list (here always empty). *)
Definition _get_values (a : Action) (arg_strings : list string) : proc E value :=
  match remove_first "--" arg_strings, nargs a with
  | [arg_string], None => _get_value a arg_string
  | _, _ => ret EmptyList
  end.

Definition setattr (ns : gmap string value) (name : option string) (v : value)
  : gmap string value :=
  match name with
  | Some d => <[d := v]> ns
  | None => ns
  end.

(** Calling the action object. *)
Definition call_action (a : Action) (st : parse_state) (values : value)
  : proc E parse_state :=
  match class a with
  | StoreAction =>
      ret (ParseState (setattr (namespace st) (dest a) values)
                      (seen_actions st) (extras st))
  | StoreTrueAction =>
      ret (ParseState (setattr (namespace st) (dest a) (Bool true))
                      (seen_actions st) (extras st))
  | HelpAction =>
      print_help ;; parser_exit 0
  end.

(** [take_action]: mark the action as seen, convert its argument
    strings and call it. *)
Definition take_action (st : parse_state) (t : action_tuple) : proc E parse_state :=
  let '(a, argument_strings, _) := t in
  let st1 := ParseState (namespace st) (a :: seen_actions st) (extras st) in
  let* argument_values := _get_values a argument_strings in
  call_action a st1 argument_values.

Fixpoint take_actions (st : parse_state) (ts : list action_tuple)
  : proc E parse_state :=
  match ts with
  | [] => ret st
  | t :: rest => let* st' := take_action st t in take_actions st' rest
  end.

(** The end of the loop of [consume_optional], when there is no
    explicit argument: match against the strings that follow. *)
Definition consume_following (a : Action) (option_string : string)
    (following : list (string * pattern)) (done : list action_tuple)
  : proc E (list action_tuple * nat) :=
  let* arg_count := _match_argument a (map snd following) in
  ret (done ++ [(a, map fst (firstn arg_count following), option_string)],
       arg_count).

(** The loop of [consume_optional] while there is an explicit argument
    [e].  A single-dash option that takes no argument passes the
    explicit argument on: its first character names the next option
    and the rest is that option's explicit argument.  The result is the
    list of action tuples and the number of following strings used. *)
Fixpoint consume_explicit (a : Action) (option_string : string) (e : string)
    (following : list (string * pattern)) (done : list action_tuple)
  : proc E (list action_tuple * nat) :=
  let* arg_count := _match_argument a [pat_A] in
  match arg_count, e with
  | O, String c e' =>
      if negb (second_is_prefix_char option_string) then
        let done' := done ++ [(a, [], option_string)] in
        let option_string' :=
          substring 0 1 option_string +:+ String c "" in
        match assoc option_string' (_option_string_actions parser) with
        | Some a' =>
            if String.eqb e' ""
            then consume_following a' option_string' following done'
            else consume_explicit a' option_string' e' following done'
        | None =>
            raise (ArgumentError (_get_action_name a) (IgnoredExplicitArgument e))
        end
      else raise (ArgumentError (_get_action_name a) (IgnoredExplicitArgument e))
  | S O, _ => ret (done ++ [(a, [e], option_string)], O)
  | _, _ => raise (ArgumentError (_get_action_name a) (IgnoredExplicitArgument e))
  end.

(** [consume_optional] for the option at the head of the strings. *)
Definition consume_optional (a : Action) (option_string : string)
    (explicit_arg : option string) (following : list (string * pattern))
  : proc E (list action_tuple * nat) :=
  match explicit_arg with
  | Some e => consume_explicit a option_string e following []
  | None => consume_following a option_string following []
  end.

Definition add_extra (st : parse_state) (s : string) : parse_state :=
  ParseState (namespace st) (seen_actions st) (extras st ++ [s]).

(** The main loop of [_parse_known_args].  The parser has no
    positional arguments, so every string that no option consumes is
    left over in [extras], as is every unknown option. *)
Fixpoint consume (toks : list (string * pattern)) (st : parse_state)
  : proc E parse_state :=
  match toks with
  | [] => ret st
  | (s, pat_A) :: rest | (s, pat_dash) :: rest => consume rest (add_extra st s)
  | (s, pat_O (OptionTuple None _ _)) :: rest => consume rest (add_extra st s)
  | (s, pat_O (OptionTuple (Some a) option_string explicit_arg)) :: rest =>
      let* r := consume_optional a option_string explicit_arg rest in
      let '(action_tuples, arg_count) := r in
      let* st' := take_actions st action_tuples in
      match arg_count, rest with
      | O, _ => consume rest st'
      | S _, _ :: rest' => consume rest' st'
      | S _, [] => ret st'
      end
  end.

(** The required actions that were not seen, by name. *)
Definition missing_required (st : parse_state) : list string :=
  map _get_action_name
      (filter (fun a => required a = true /\ a ∉ seen_actions st)
              (actions parser)).

(** [_parse_known_args]. *)
Definition _parse_known_args (arg_strings : list string)
    (ns : gmap string value) : proc E parse_state :=
  match classify arg_strings with
  | inl m => error m
  | inr toks =>
      let* st := consume toks (ParseState ns [] []) in
      match missing_required st with
      | [] => ret st
      | names => error (RequiredArguments names)
      end
  end.

(** The namespace holding every action's default. *)
Definition default_namespace : gmap string value :=
  fold_left (fun ns a =>
               match dest a, default a with
               | Some d, Some v =>
                   match ns !! d with Some _ => ns | None => <[d := v]> ns end
               | _, _ => ns
               end)
            (actions parser) ∅.

(** [parse_known_args]: an [ArgumentError] raised while parsing becomes
    a call to [error]. *)
Definition parse_known_args (args : list string)
  : proc E (gmap string value * list string) :=
  let* st := catch_argument_error
               (_parse_known_args args default_namespace)
               (fun name msg => error (ArgumentErrorMessage name msg)) in
  ret (namespace st, extras st).

(** [parse_args]: left-over strings are an error. *)
Definition parse_args (args : list string) : proc E (gmap string value) :=
  let* r := parse_known_args args in
  let '(ns, argv) := r in
  match argv with
  | [] => ret ns
  | _ => error (UnrecognizedArguments argv)
  end.
End Parsing.

(** ** What a successful second pass does

    A relational account of [consume] on the runs that neither raise nor
    print help; it is related to the function by [consume_cases]. *)

(** The value [_get_values] yields for the single argument string [arg]. *)
Definition converted (a : Action) (arg : string) : option value :=
  if String.eqb arg "--" then Some EmptyList
  else match type a with
       | type_none => Some (Str arg)
       | type_int => option_map Int (int arg)
       end.

(** The state after action [a] was taken with value [v]. *)
Definition stored (st : parse_state) (a : Action) (v : value) : parse_state :=
  ParseState (setattr (namespace st) (dest a) v) (a :: seen_actions st) (extras st).

(** Strings the loop leaves in [extras]. *)
Definition leftover (pt : pattern) : Prop :=
  match pt with
  | pat_A | pat_dash => True
  | pat_O t => ot_action t = None
  end.

Inductive scans : list (string * pattern) -> parse_state -> parse_state -> Prop :=
| scans_nil st :
    scans [] st st
| scans_extra s pt rest st st' :
    leftover pt ->
    scans rest (add_extra st s) st' ->
    scans ((s, pt) :: rest) st st'
| scans_explicit s a os e v rest st st' :
    class a = StoreAction ->
    converted a e = Some v ->
    scans rest (stored st a v) st' ->
    scans ((s, pat_O (OptionTuple (Some a) os (Some e))) :: rest) st st'
| scans_following s a os arg v rest st st' :
    class a = StoreAction ->
    converted a arg = Some v ->
    scans rest (stored st a v) st' ->
    scans ((s, pat_O (OptionTuple (Some a) os None)) :: (arg, pat_A) :: rest) st st'
| scans_flag s a os rest st st' :
    class a = StoreTrueAction ->
    scans rest (stored st a (Bool true)) st' ->
    scans ((s, pat_O (OptionTuple (Some a) os None)) :: rest) st st'.

(** Some classified string selects action [a]. *)
Definition selects (a : Action) (toks : list (string * pattern)) : Prop :=
  exists s os e, In (s, pat_O (OptionTuple (Some a) os e)) toks.

(** Every option of the pattern comes from the parser's table. *)
Definition from_table (parser : ArgumentParser) (toks : list (string * pattern)) : Prop :=
  forall s a os e,
    In (s, pat_O (OptionTuple (Some a) os e)) toks ->
    In (os, a) (_option_string_actions parser).

(** Flags that take no argument are registered under long option
    strings only, the help action apart; such a flag never starts a
    cluster of single-dash options. *)
Definition long_flags (parser : ArgumentParser) : Prop :=
  forall os a,
    In (os, a) (_option_string_actions parser) ->
    class a = StoreTrueAction ->
    second_is_prefix_char os = true.

(** No two actions share a destination. *)
Definition distinct_dests (parser : ArgumentParser) : Prop :=
  forall a b d,
    In a (actions parser) -> In b (actions parser) ->
    dest a = Some d -> dest b = Some d -> a = b.

(** The values an action can leave in the namespace. *)
Definition value_ok (a : Action) (v : value) : Prop :=
  match class a, type a with
  | StoreTrueAction, _ => v = Bool true
  | StoreAction, type_none => v = EmptyList \/ exists x, v = Str x
  | StoreAction, type_int => v = EmptyList \/ exists i, v = Int i
  | HelpAction, _ => True
  end.

(** Every action seen so far has left a value of its kind. *)
Definition namespace_ok (parser : ArgumentParser) (st : parse_state) : Prop :=
  forall a d,
    In a (seen_actions st) -> In a (actions parser) -> dest a = Some d ->
    exists v, namespace st !! d = Some v /\ value_ok a v.

(** ** Reading a command line without running the parser *)

(** The strings before the first ["--"]: the only ones that can be
    options. *)
Fixpoint option_part (argv : list string) : list string :=
  match argv with
  | [] => []
  | s :: rest => if String.eqb s "--" then [] else s :: option_part rest
  end.

(** The string [s] is an option string of action [a], in full or
    abbreviated, with or without an attached argument. *)
Definition names_action (parser : ArgumentParser) (a : Action) (s : string) : bool :=
  match _parse_optional parser s with
  | inr (Some (OptionTuple (Some a') _ _)) => bool_decide (a' = a)
  | _ => false
  end.

(** The command line gives the option of action [a]. *)
Definition given (parser : ArgumentParser) (a : Action) (argv : list string) : bool :=
  existsb (names_action parser a) (option_part argv).

(** The argument strings the command line gives to action [a]: the
    attached argument of a string naming [a], or else the string that
    follows it. *)
Fixpoint values_given (parser : ArgumentParser) (a : Action) (argv : list string)
  : list string :=
  match argv with
  | [] => []
  | s :: rest =>
      if String.eqb s "--" then []
      else if names_action parser a s then
        match _parse_optional parser s, rest with
        | inr (Some (OptionTuple _ _ (Some e))), _ => e :: values_given parser a rest
        | _, v :: _ => v :: values_given parser a rest
        | _, [] => values_given parser a rest
        end
      else values_given parser a rest
  end.

End argparse.

(* ===================================================================== *)
(** * tester.py *)
(* ===================================================================== *)

Module tester.
Import Py argparse.
Local Open Scope proc_scope.

(** The parser the script builds, statement by statement. *)
Definition parser (prog : string) : ArgumentParser :=
  let parser := new_parser prog "Testing tmux script" in
  let parser :=
    add_argument ["-c"; "--clone_name"] StoreAction type_none true
                 "The name of the clone to greet." parser in
  let parser :=
    add_argument ["-n"; "--clone_count"] StoreAction type_int true
                 "Number of clones to greet" parser in
  let parser :=
    add_argument ["--greet"] StoreTrueAction type_none true
                 "Include a greeting (default: False)." parser in
  parser.

(** The literal text of the f-string before the first replacement
    field: the alien emoji (U+1F47D) and the salutation. *)
Definition greeting_prefix : string := "👽 says: Hello, ".

(** The f-string of the loop body. *)
Definition greeting (clone_name : value) (i : Z) : string :=
  greeting_prefix +:+ format clone_name +:+ str i +:+ "!".

Section Script.
Context {E : Type}.

(** Attribute access on the namespace. *)
Definition getattr (ns : gmap string value) (name : string) : proc E value :=
  match ns !! name with
  | Some v => ret v
  | None => raise (AttributeError name)
  end.

(** [range(v)]: only integers (and booleans, which are integers) are
    accepted. *)
Definition range_of (v : value) : proc E range_iterator :=
  match v with
  | Int n => ret (range n)
  | Bool b => ret (range (if b then 1 else 0))
  | NoneVal => raise (TypeError "'NoneType' object cannot be interpreted as an integer")
  | Str _ => raise (TypeError "'str' object cannot be interpreted as an integer")
  | EmptyList => raise (TypeError "'list' object cannot be interpreted as an integer")
  end.

(** The loop of the script, on a parsed namespace. *)
Definition greet_clones (args : gmap string value) : proc E unit :=
  let* clone_count := getattr args "clone_count" in
  let* it := range_of clone_count in
  for_in it (fun i =>
    let* clone_name := getattr args "clone_name" in
    print (greeting clone_name i)).

(** The module body: [argv] is [sys.argv[1:]] and [prog] the base name
    of [sys.argv[0]]. *)
Definition main (prog : string) (argv : list string) : proc E unit :=
  let* args := parse_args (parser prog) argv in
  greet_clones args.

(** ** Running the script as a process *)

Record outcome := Outcome {
  final : world E;
  exit_code : Z
}.

(** The interpreter runs the module body: a normal return exits with
    status 0, [SystemExit] with its status, and any other exception
    prints a traceback on standard error and exits with status 1. *)
Definition run_from (w : world E) (prog : string) (argv : list string) : outcome :=
  match main prog argv w with
  | (w', Return _) => Outcome w' 0
  | (w', Raise (SystemExit status)) => Outcome w' status
  | (w', Raise e) =>
      Outcome (World E (stdout w') (stderr w' ++ [Traceback e]) (external w')) 1
  end.
End Script.

(** A fresh process: nothing written yet. *)
Definition initial {E} (ext : E) : world E := World E "" [] ext.

Definition run (prog : string) (argv : list string) : @outcome unit :=
  run_from (initial tt) prog argv.

Definition out (o : @outcome unit) : string := stdout (final o).
Definition err (o : @outcome unit) : list diagnostic := stderr (final o).

(** ** Vocabulary of the specification *)

(** The three actions the script registers. *)
Definition clone_name_action : Action :=
  {| option_strings := ["-c"; "--clone_name"];
     dest := Some "clone_name";
     class := StoreAction;
     type := type_none;
     required := true;
     help := "The name of the clone to greet." |}.

Definition clone_count_action : Action :=
  {| option_strings := ["-n"; "--clone_count"];
     dest := Some "clone_count";
     class := StoreAction;
     type := type_int;
     required := true;
     help := "Number of clones to greet" |}.

Definition greet_action : Action :=
  {| option_strings := ["--greet"];
     dest := Some "greet";
     class := StoreTrueAction;
     type := type_none;
     required := true;
     help := "Include a greeting (default: False)." |}.

(** The integers from 0 up to, and not including, [n]. *)
Definition indices (n : Z) : list Z := map Z.of_nat (seq 0 (Z.to_nat n)).

(** The greetings for the indices below [n], in ascending order. *)
Definition greetings (clone_name : value) (n : Z) : list string :=
  map (greeting clone_name) (indices n).

(** The text made of the given records, each ended by a line feed. *)
Fixpoint text_of (records : list string) : string :=
  match records with
  | [] => ""
  | r :: rest => (r +:+ String LF "") +:+ text_of rest
  end.

(** The world after [parser.print_help()]. *)
Definition help_printed {E} (prog : string) (w : world E) : world E :=
  World E (stdout w +:+ format_help (parser prog)) (stderr w) (external w).

(** The world after [parser.error(m)] has written its diagnostic. *)
Definition error_printed {E} (prog : string) (m : error_message) (w : world E)
  : world E :=
  World E (stdout w) (stderr w ++ [UsageError prog m]) (external w).

(** The parser accepts the command line and returns [args]. *)
Definition accepts (prog : string) (argv : list string)
    (args : gmap string value) : Prop :=
  parse_args (parser prog) argv (initial tt) = (initial tt, Return args).

(** A valid invocation with name [X] and count [N]: the parser accepts
    the command line with [clone_name = X], [clone_count = N] and
    [greet] set. *)
Definition valid_invocation (prog : string) (argv : list string)
    (X : string) (N : Z) : Prop :=
  exists args,
    accepts prog argv args /\
    args !! "clone_name" = Some (Str X) /\
    args !! "clone_count" = Some (Int N) /\
    args !! "greet" = Some (Bool true).

(** The namespace the parser returns for a command line it accepts. *)
Definition namespace_of (prog : string) (argv : list string) : gmap string value :=
  match parse_args (parser prog) argv (initial tt) with
  | (_, Return args) => args
  | _ => ∅
  end.

(** One option with what it takes: the strings, their pattern and what
    scanning them does to the state. *)
Definition group_ok (prog : string) (g : list string) (t : list (string * pattern))
    (f : parse_state -> parse_state) : Prop :=
  ~ In "--" g /\
  classify (parser prog) g = inr t /\
  (forall st, scans t st (f st)) /\
  (forall st, extras (f st) = extras st).

(** The body of the loop run on each index of a list in turn. *)
Fixpoint run_bodies {E} (body : Z -> proc E unit) (l : list Z) : proc E unit :=
  match l with
  | [] => ret tt
  | i :: rest => body i ;; run_bodies body rest
  end.

(** [k] calls of [next], when none of them raises [StopIteration]. *)
Fixpoint advance (k : nat) (it : range_iterator) : option range_iterator :=
  match k with
  | O => Some it
  | S k' =>
      match next it with
      | Some (_, it') => advance k' it'
      | None => None
      end
  end.

End tester.

(* ===================================================================== *)
(** * Properties of the built-ins *)
(* ===================================================================== *)

Section PyFacts.
Import Py.

Lemma append_cons (c : ascii) (a b : string) : String c a +:+ b = String c (a +:+ b).
Proof. reflexivity. Qed.

Lemma append_nil_l (s : string) : "" +:+ s = s.
Proof. reflexivity. Qed.

Lemma append_nil_r (s : string) : s +:+ "" = s.
Proof. induction s as [|c s IH]; [reflexivity|]. now rewrite append_cons, IH. Qed.

Lemma append_assoc (a b c : string) : (a +:+ b) +:+ c = a +:+ (b +:+ c).
Proof. induction a as [|x a IH]; [reflexivity|]. now rewrite !append_cons, IH. Qed.

Lemma contains_append (c : ascii) (a b : string) :
  contains c (a +:+ b) = contains c a || contains c b.
Proof.
  induction a as [|x a IH]; [reflexivity|].
  rewrite append_cons. simpl. rewrite IH. now rewrite orb_assoc.
Qed.

(** A record without line feed, once ended by one, is one line. *)
Lemma lines_from_record (cur r rest : string) :
  contains LF r = false ->
  lines_from cur (r +:+ String LF rest) = (cur +:+ r) :: lines_from "" rest.
Proof.
  revert cur. induction r as [|c r IH]; intros cur Hr.
  - rewrite append_nil_l, append_nil_r. cbn [lines_from].
    now rewrite Ascii.eqb_refl.
  - simpl in Hr. apply orb_false_elim in Hr as [Hc Hr].
    rewrite append_cons. cbn [lines_from]. rewrite Hc.
    rewrite IH by assumption. rewrite append_assoc. reflexivity.
Qed.

Lemma text_of_cons (r : string) (l : list string) :
  tester.text_of (r :: l) = r +:+ String LF (tester.text_of l).
Proof. cbn [tester.text_of]. now rewrite append_assoc. Qed.

Lemma text_of_app (l1 l2 : list string) :
  tester.text_of (l1 ++ l2) = tester.text_of l1 +:+ tester.text_of l2.
Proof.
  induction l1 as [|r l1 IH]; [reflexivity|].
  cbn [app]. rewrite !text_of_cons, IH. rewrite append_assoc. reflexivity.
Qed.

(** The lines of a text made of records free of line feeds are the
    records. *)
Lemma lines_text_of (l : list string) :
  Forall (fun r => contains LF r = false) l ->
  lines (tester.text_of l) = l.
Proof.
  unfold lines. induction 1 as [|r l Hr _ IH]; [reflexivity|].
  rewrite text_of_cons, lines_from_record by assumption.
  cbn. now rewrite IH.
Qed.

Lemma string_of_uint_no_LF (d : Decimal.uint) :
  contains LF (NilEmpty.string_of_uint d) = false.
Proof. induction d; cbn; auto. Qed.

(** A decimal numeral contains no line feed. *)
Lemma str_no_LF (i : Z) : contains LF (str i) = false.
Proof.
  unfold str, NilZero.string_of_int, NilZero.string_of_uint.
  destruct (Z.to_int i) as [d|d]; destruct d; cbn; auto using string_of_uint_no_LF.
Qed.

(** ** The loop *)

Lemma for_in_unfold {E} (it : range_iterator) (body : Z -> proc E unit) :
  for_in it body =
  match next it with
  | Some (i, it') => bind (body i) (fun _ => for_in it' body)
  | None => ret tt
  end.
Proof.
  rewrite for_in_equation_1.
  generalize (inspect (next it)).
  intros [[[i it']|] H]; unfold for_in_unfold_clause_1; rewrite H; reflexivity.
Qed.

Lemma pending_next_some (it it' : range_iterator) (i : Z) :
  next it = Some (i, it') -> pending it = i :: pending it'.
Proof.
  unfold next. destruct (index it <? stop it) eqn:Hlt; [|discriminate].
  intros [= <- <-]. apply Z.ltb_lt in Hlt.
  unfold pending, remaining. cbn [index stop].
  replace (Z.to_nat (stop it - index it)) with (S (Z.to_nat (stop it - (index it + 1))))
    by lia.
  rewrite <- cons_seq. cbn [map]. f_equal; [lia|].
  rewrite <- seq_shift, map_map. apply map_ext. intros k. lia.
Qed.

Lemma pending_next_none (it : range_iterator) :
  next it = None -> pending it = [].
Proof.
  unfold next. destruct (index it <? stop it) eqn:Hlt; [discriminate|].
  intros _. apply Z.ltb_ge in Hlt.
  unfold pending, remaining. now replace (Z.to_nat (stop it - index it)) with O by lia.
Qed.

(** The loop runs its body on the pending indices, in order. *)
Lemma for_in_pending {E} (body : Z -> proc E unit) (it : range_iterator) :
  for_in it body = tester.run_bodies body (pending it).
Proof.
  remember (remaining it) as k eqn:Hk. revert it Hk.
  induction k as [|k IH]; intros it Hk; rewrite for_in_unfold.
  - destruct (next it) as [[i it']|] eqn:Hn.
    + exfalso. unfold next in Hn.
      destruct (index it <? stop it) eqn:Hlt; [|discriminate].
      apply Z.ltb_lt in Hlt. unfold remaining in Hk. lia.
    + now rewrite (pending_next_none it Hn).
  - destruct (next it) as [[i it']|] eqn:Hn.
    + rewrite (pending_next_some _ _ _ Hn). cbn [tester.run_bodies].
      rewrite (IH it'); [reflexivity|].
      unfold next in Hn. destruct (index it <? stop it); [|discriminate].
      injection Hn as _ <-. unfold remaining in *. cbn [index stop]. lia.
    + now rewrite (pending_next_none it Hn).
Qed.

Lemma pending_range (n : Z) : pending (range n) = tester.indices n.
Proof.
  unfold pending, tester.indices, range, remaining. cbn [index stop].
  rewrite Z.sub_0_r. apply map_ext. intros k. lia.
Qed.

Lemma for_in_range {E} (body : Z -> proc E unit) (n : Z) :
  for_in (range n) body = tester.run_bodies body (tester.indices n).
Proof. now rewrite for_in_pending, pending_range. Qed.

Lemma length_indices (n : Z) : length (tester.indices n) = Z.to_nat (Z.max n 0).
Proof. unfold tester.indices. rewrite length_map, length_seq. lia. Qed.

Lemma indices_nonpositive (n : Z) : n <= 0 -> tester.indices n = [].
Proof. intros Hn. unfold tester.indices. now replace (Z.to_nat n) with O by lia. Qed.

Lemma nth_error_indices (n i : Z) :
  0 <= i < n -> nth_error (tester.indices n) (Z.to_nat i) = Some i.
Proof.
  intros Hi. unfold tester.indices.
  rewrite nth_error_map, nth_error_seq.
  destruct (Nat.ltb_spec (Z.to_nat i) (Z.to_nat n)); [|lia].
  cbn. f_equal. lia.
Qed.

(** Printing one record per index appends the text of those records. *)
Lemma run_bodies_print {E} (f : Z -> string) (l : list Z) (w : world E) :
  tester.run_bodies (fun i => print (f i)) l w =
  (World E (stdout w +:+ tester.text_of (map f l)) (stderr w) (external w), Return tt).
Proof.
  revert w. induction l as [|i l IH]; intros w.
  - cbn. rewrite append_nil_r. now destruct w.
  - cbn [tester.run_bodies map]. unfold bind at 1. unfold print at 1, write_stdout.
    rewrite IH. cbn [stdout stderr external].
    rewrite text_of_cons, !append_assoc. reflexivity.
Qed.

End PyFacts.

(** ** [int] reads back what [str] writes *)

Section IntStr.
Import Py.

Lemma scan_digits_uint (d : Decimal.uint) (acc : Z) (n : nat) :
  scan_digits (NilEmpty.string_of_uint d) acc n false
  = Some (uint_value d acc, (n + Decimal.nb_digits d)%nat, "").
Proof.
  revert acc n. induction d; intros acc n; cbn [NilEmpty.string_of_uint scan_digits];
    try (change (digit_value _) with (Some 0) || change (digit_value _) with (Some 1)
         || change (digit_value _) with (Some 2) || change (digit_value _) with (Some 3)
         || change (digit_value _) with (Some 4) || change (digit_value _) with (Some 5)
         || change (digit_value _) with (Some 6) || change (digit_value _) with (Some 7)
         || change (digit_value _) with (Some 8) || change (digit_value _) with (Some 9));
    cbn [uint_value Decimal.nb_digits];
    try (rewrite IHd; do 2 f_equal; f_equal; lia).
  do 2 f_equal. f_equal. lia.
Qed.

Lemma uint_value_pos (d : Decimal.uint) (acc : positive) :
  uint_value d (Z.pos acc) = Z.pos (Pos.of_uint_acc d acc).
Proof.
  revert acc. induction d; intros acc; cbn [uint_value Pos.of_uint_acc];
    [reflexivity| |..];
    match goal with
    | |- uint_value _ ?a = Z.pos (Pos.of_uint_acc _ ?b) =>
        replace a with (Z.pos b) by lia; apply IHd
    end.
Qed.

Lemma uint_value_zero (d : Decimal.uint) :
  uint_value d 0 = Z.of_N (Pos.of_uint d).
Proof.
  induction d; cbn [uint_value Pos.of_uint]; [reflexivity|exact IHd|..];
    cbn [Z.mul Z.add Z.of_N]; apply uint_value_pos.
Qed.

Lemma string_of_uint_length (d : Decimal.uint) :
  String.length (NilEmpty.string_of_uint d) = Decimal.nb_digits d.
Proof. induction d; cbn; congruence. Qed.

(** Reading a numeral of a positive number: no sign, no white space. *)
Lemma int_of_numeral (d : Decimal.uint) :
  d <> Decimal.Nil ->
  (Decimal.nb_digits d <= int_max_str_digits)%nat ->
  int (NilEmpty.string_of_uint d) = Some (uint_value d 0) /\
  int (String "-" (NilEmpty.string_of_uint d)) = Some (- uint_value d 0).
Proof.
  intros Hd Hlen.
  assert (Hn : Nat.eqb (Decimal.nb_digits d) 0 = false)
    by (apply Nat.eqb_neq; destruct d; [contradiction|..]; cbn; lia).
  assert (Hl : Nat.ltb int_max_str_digits (Decimal.nb_digits d) = false)
    by (apply Nat.ltb_ge; exact Hlen).
  pose proof (scan_digits_uint d 0 0) as Hscan. cbn [Nat.add] in Hscan.
  destruct d; [contradiction|..]; cbn [NilEmpty.string_of_uint] in *;
    (split;
     [ unfold int; cbn [lstrip]
     | unfold int; cbn [lstrip] ]);
    match goal with
    | |- context [isspace ?c] =>
        change (isspace c) with false; cbv iota
    end;
    rewrite Hscan, Hn, Hl; reflexivity.
Qed.

Lemma string_of_uint_nonnil (d : Decimal.uint) :
  d <> Decimal.Nil -> NilZero.string_of_uint d = NilEmpty.string_of_uint d.
Proof. destruct d; [contradiction|..]; reflexivity. Qed.

Lemma to_uint_nonnil (p : positive) : Pos.to_uint p <> Decimal.Nil.
Proof.
  intros H. pose proof (DecimalPos.Unsigned.of_to p) as Hof.
  rewrite H in Hof. discriminate Hof.
Qed.

(** [int(str(z))] is [z], as long as the numeral stays within the limit
    on the number of digits. *)
Lemma int_str (z : Z) :
  (String.length (str (Z.abs z)) <= int_max_str_digits)%nat ->
  int (str z) = Some z.
Proof.
  unfold str. destruct z as [|p|p]; cbn [Z.abs Z.to_int NilZero.string_of_int];
    [intros _; vm_compute; reflexivity|..];
    change (Z.to_int (Z.abs _)) with (Decimal.Pos (Pos.to_uint p));
    cbn [NilZero.string_of_int];
    rewrite (string_of_uint_nonnil _ (to_uint_nonnil p)), string_of_uint_length;
    intros Hlen;
    destruct (int_of_numeral _ (to_uint_nonnil p) Hlen) as [Hpos Hneg];
    rewrite ?Hpos, ?Hneg, uint_value_zero, DecimalPos.Unsigned.of_to; reflexivity.
Qed.

End IntStr.

(* ===================================================================== *)
(** * Properties of the parser *)
(* ===================================================================== *)

Section ArgparseFacts.
Import Py argparse.
Context {E : Type}.
Variable q : ArgumentParser.

Lemma assoc_In (k : string) (l : list (string * Action)) (a : Action) :
  assoc k l = Some a -> In (k, a) l.
Proof.
  induction l as [|[k' a'] l IH]; [discriminate|].
  cbn [assoc]. destruct (String.eqb_spec k' k) as [->|_].
  - intros [= ->]. now left.
  - intros H. right. auto.
Qed.

Lemma get_option_tuples_from_table (s os : string) (a : Action) (e : option string) :
  In (OptionTuple (Some a) os e) (_get_option_tuples q s) ->
  In (os, a) (_option_string_actions q).
Proof.
  unfold _get_option_tuples.
  destruct (second_is_prefix_char s).
  - destruct (if contains "=" s then _ else _) as [px ex].
    rewrite in_flat_map. intros [[os' a'] [Hin H]].
    destruct (startswith os' px); [|contradiction].
    destruct H as [[= -> -> _]|[]]. exact Hin.
  - rewrite in_flat_map. intros [[os' a'] [Hin H]].
    destruct (String.eqb os' _).
    + destruct H as [[= -> -> _]|[]]. exact Hin.
    + destruct (startswith os' s); [|contradiction].
      destruct H as [[= -> -> _]|[]]. exact Hin.
Qed.

(** An option that [_parse_optional] resolves comes from the table of
    registered option strings. *)
Lemma parse_optional_from_table (s os : string) (a : Action) (e : option string) :
  _parse_optional q s = inr (Some (OptionTuple (Some a) os e)) ->
  In (os, a) (_option_string_actions q).
Proof.
  unfold _parse_optional. destruct s as [|c0 tail]; [discriminate|].
  destruct (negb (is_prefix_char c0)); [discriminate|].
  destruct (assoc (String c0 tail) _) as [a0|] eqn:Ha0.
  { intros [= -> <- _]. now apply assoc_In. }
  destruct (String.eqb tail ""); [discriminate|].
  assert (Heq : forall t,
             (if contains "=" (String c0 tail)
              then let '(os', e') := split1 "=" (String c0 tail) in
                   match assoc os' (_option_string_actions q) with
                   | Some a' => Some (OptionTuple (Some a') os' (Some e'))
                   | None => None
                   end
              else None) = Some t ->
             t = OptionTuple (Some a) os e -> In (os, a) (_option_string_actions q)).
  { intros t Ht ->. destruct (contains "=" (String c0 tail)); [|discriminate].
    destruct (split1 "=" (String c0 tail)) as [os' e'].
    destruct (assoc os' _) as [a'|] eqn:Ha'; [|discriminate].
    injection Ht as -> -> _. now apply assoc_In. }
  destruct (if contains "=" (String c0 tail) then _ else _) as [t|].
  { intros [= ->]. now apply (Heq _ eq_refl). }
  clear Heq.
  destruct (_get_option_tuples q (String c0 tail)) as [|t [|t' ts]] eqn:Hts.
  - destruct (_ && _); [discriminate|].
    destruct (contains " " _); discriminate.
  - intros [= ->]. apply (get_option_tuples_from_table (String c0 tail) os a e).
    rewrite Hts. now left.
  - discriminate.
Qed.

Lemma classify_from_table (argv : list string) (toks : list (string * pattern)) :
  classify q argv = inr toks -> from_table q toks.
Proof.
  revert toks. induction argv as [|s rest IH]; intros toks.
  - intros [= <-] ? ? ? ? [].
  - cbn [classify]. destruct (String.eqb s "--").
    + intros [= <-] s' a os e [H|H]; [discriminate|].
      apply in_map_iff in H as [x [H _]]. discriminate.
    + destruct (_parse_optional q s) as [m|t] eqn:Hs; [discriminate|].
      destruct (classify q rest) as [m|ps]; [discriminate|].
      intros [= <-] s' a os e [H|H].
      * destruct t as [t|]; [|discriminate]. injection H as _ ->.
        now apply (parse_optional_from_table s os a e).
      * now apply (IH ps eq_refl s' a os e).
Qed.

(** ** One option at a time *)

Lemma get_values_single (a : Action) (arg : string) (w : world E) :
  class a = StoreAction ->
  _get_values a [arg] w =
  match converted a arg with
  | Some v => (w, Return v)
  | None => (w, Raise (ArgumentError (_get_action_name a) (InvalidValue "int" arg)))
  end.
Proof.
  intros Hc. unfold _get_values, converted, nargs, _get_value. rewrite Hc.
  cbn [remove_first]. destruct (String.eqb arg "--"); [reflexivity|].
  destruct (type a); [reflexivity|]. now destruct (int arg).
Qed.

Lemma get_values_flag (a : Action) (args : list string) (w : world E) :
  class a <> StoreAction -> _get_values a args w = (w, Return EmptyList).
Proof.
  intros Hc. unfold _get_values, nargs.
  destruct (class a); [contradiction| |];
    destruct (remove_first "--" args) as [|? [|? ?]]; reflexivity.
Qed.

Lemma take_stored (a : Action) (arg os : string) (st : parse_state) (w : world E) :
  class a = StoreAction ->
  take_actions q st [(a, [arg], os)] w =
  match converted a arg with
  | Some v => (w, Return (stored st a v))
  | None => (w, Raise (ArgumentError (_get_action_name a) (InvalidValue "int" arg)))
  end.
Proof.
  intros Hc. cbn [take_actions]. unfold take_action, bind.
  rewrite get_values_single by assumption.
  destruct (converted a arg); [|reflexivity].
  unfold call_action. rewrite Hc. reflexivity.
Qed.

Lemma take_flag (a : Action) (os : string) (st : parse_state) (w : world E) :
  class a = StoreTrueAction ->
  take_actions q st [(a, [], os)] w = (w, Return (stored st a (Bool true))).
Proof.
  intros Hc. cbn [take_actions]. unfold take_action, bind.
  rewrite get_values_flag by (rewrite Hc; discriminate).
  unfold call_action. rewrite Hc. reflexivity.
Qed.

Lemma take_help (a : Action) (args : list string) (os : string)
    (ts : list action_tuple) (st : parse_state) (w : world E) :
  class a = HelpAction ->
  take_actions q st ((a, args, os) :: ts) w =
  (World E (stdout w +:+ format_help q) (stderr w) (external w), Raise (SystemExit 0)).
Proof.
  intros Hc. cbn [take_actions]. unfold take_action, bind.
  rewrite get_values_flag by (rewrite Hc; discriminate).
  unfold call_action. rewrite Hc. reflexivity.
Qed.

Lemma consume_following_cases (a : Action) (os : string)
    (following : list (string * pattern)) (done : list action_tuple) (w : world E) :
  (exists nm m, consume_following a os following done w
                = (w, Raise (ArgumentError nm m))) \/
  (exists args k, consume_following a os following done w
                  = (w, Return (done ++ [(a, args, os)], k))).
Proof.
  unfold consume_following, bind, _match_argument.
  destruct (nargs a) as [k|].
  - right. eauto.
  - destruct following as [|[s [| |]] rest]; cbn [map snd]; eauto.
Qed.

(** The loop of [consume_optional] either raises an [ArgumentError] or
    returns tuples of which the first is for the action it started on;
    it never touches the world. *)
Lemma consume_explicit_cases (e : string) (a : Action) (os : string)
    (following : list (string * pattern)) (done : list action_tuple) (w : world E) :
  (exists nm m, consume_explicit q a os e following done w
                = (w, Raise (ArgumentError nm m))) \/
  (exists args ts k, consume_explicit q a os e following done w
                     = (w, Return (done ++ (a, args, os) :: ts, k))).
Proof.
  revert a os done. induction e as [|c e IH]; intros a os done.
  - cbn [consume_explicit]. unfold bind, _match_argument.
    destruct (nargs a) as [[|[|k]]|]; cbn; eauto 6.
  - cbn [consume_explicit]. unfold bind, _match_argument.
    destruct (nargs a) as [[|[|k]]|]; cbn [ret]; eauto 6.
    destruct (negb (second_is_prefix_char os)); [|eauto].
    destruct (assoc _ _) as [a'|]; [|eauto].
    destruct (String.eqb e "").
    + destruct (consume_following_cases a' (substring 0 1 os +:+ String c "")
                  following (done ++ [(a, [], os)]) w)
        as [(nm & m & ->)|(args & k & ->)]; [eauto|].
      right. exists [], [(a', args, substring 0 1 os +:+ String c "")], k.
      now rewrite <- app_assoc.
    + destruct (IH a' (substring 0 1 os +:+ String c "") (done ++ [(a, [], os)]))
        as [(nm & m & ->)|(args & ts & k & ->)]; [eauto|].
      right. exists [], ((a', args, substring 0 1 os +:+ String c "") :: ts), k.
      now rewrite <- app_assoc.
Qed.

Lemma step_leftover (s : string) (pt : pattern) (rest : list (string * pattern))
    (st : parse_state) :
  leftover pt ->
  consume q ((s, pt) :: rest) st = consume (E := E) q rest (add_extra st s).
Proof.
  destruct pt as [|[[a|] os e]|]; cbn; intros H; try reflexivity; discriminate.
Qed.

Lemma step_store_explicit (s : string) (a : Action) (os e : string)
    (rest : list (string * pattern)) (st : parse_state) (w : world E) :
  class a = StoreAction ->
  consume q ((s, pat_O (OptionTuple (Some a) os (Some e))) :: rest) st w =
  match converted a e with
  | Some v => consume q rest (stored st a v) w
  | None => (w, Raise (ArgumentError (_get_action_name a) (InvalidValue "int" e)))
  end.
Proof.
  intros Hc. cbn [consume]. unfold bind at 1.
  assert (Hce : consume_optional q a os (Some e) rest w
                = (w, Return ([(a, [e], os)], O))).
  { unfold consume_optional. destruct e; cbn [consume_explicit];
      unfold bind, _match_argument, nargs; rewrite Hc; reflexivity. }
  rewrite Hce. unfold bind. rewrite take_stored by assumption.
  now destruct (converted a e).
Qed.

Lemma step_store_following (s : string) (a : Action) (os arg : string)
    (rest : list (string * pattern)) (st : parse_state) (w : world E) :
  class a = StoreAction ->
  consume q ((s, pat_O (OptionTuple (Some a) os None)) :: (arg, pat_A) :: rest) st w =
  match converted a arg with
  | Some v => consume q rest (stored st a v) w
  | None => (w, Raise (ArgumentError (_get_action_name a) (InvalidValue "int" arg)))
  end.
Proof.
  intros Hc. cbn [consume]. unfold bind at 1.
  assert (Hce : consume_optional q a os None ((arg, pat_A) :: rest) w
                = (w, Return ([(a, [arg], os)], 1%nat))).
  { unfold consume_optional, consume_following, bind, _match_argument, nargs.
    rewrite Hc. reflexivity. }
  rewrite Hce. unfold bind. rewrite take_stored by assumption.
  now destruct (converted a arg).
Qed.

Lemma step_store_alone (s : string) (a : Action) (os : string)
    (rest : list (string * pattern)) (st : parse_state) (w : world E) :
  class a = StoreAction ->
  match rest with (_, pat_A) :: _ => False | _ => True end ->
  consume q ((s, pat_O (OptionTuple (Some a) os None)) :: rest) st w =
  (w, Raise (ArgumentError (_get_action_name a) ExpectedOneArgument)).
Proof.
  intros Hc Hrest. cbn [consume]. unfold bind at 1.
  unfold consume_optional, consume_following, bind, _match_argument, nargs.
  rewrite Hc. destruct rest as [|[s' [| |]] rest']; try reflexivity. contradiction.
Qed.

Lemma step_flag (s : string) (a : Action) (os : string)
    (rest : list (string * pattern)) (st : parse_state) (w : world E) :
  class a = StoreTrueAction ->
  consume q ((s, pat_O (OptionTuple (Some a) os None)) :: rest) st w =
  consume q rest (stored st a (Bool true)) w.
Proof.
  intros Hc. cbn [consume]. unfold bind at 1.
  assert (Hce : consume_optional q a os None rest w
                = (w, Return ([(a, [], os)], O))).
  { unfold consume_optional, consume_following, bind, _match_argument, nargs.
    rewrite Hc. reflexivity. }
  rewrite Hce. unfold bind. now rewrite take_flag.
Qed.

Lemma step_long_explicit (s : string) (a : Action) (os e : string)
    (rest : list (string * pattern)) (st : parse_state) (w : world E) :
  class a <> StoreAction ->
  second_is_prefix_char os = true ->
  consume q ((s, pat_O (OptionTuple (Some a) os (Some e))) :: rest) st w =
  (w, Raise (ArgumentError (_get_action_name a) (IgnoredExplicitArgument e))).
Proof.
  intros Hc Hos. cbn [consume]. unfold bind at 1.
  unfold consume_optional.
  destruct e; cbn [consume_explicit]; unfold bind, _match_argument, nargs;
    destruct (class a); try contradiction; cbn [ret]; rewrite ?Hos; reflexivity.
Qed.

Lemma step_help (s : string) (a : Action) (os : string)
    (rest : list (string * pattern)) (st : parse_state) (w : world E) :
  class a = HelpAction ->
  consume q ((s, pat_O (OptionTuple (Some a) os None)) :: rest) st w =
  (World E (stdout w +:+ format_help q) (stderr w) (external w), Raise (SystemExit 0)).
Proof.
  intros Hc. cbn [consume]. unfold bind at 1.
  assert (Hce : consume_optional q a os None rest w
                = (w, Return ([(a, [], os)], O))).
  { unfold consume_optional, consume_following, bind, _match_argument, nargs.
    rewrite Hc. reflexivity. }
  rewrite Hce. unfold bind. now rewrite take_help.
Qed.

Lemma step_help_explicit (s : string) (a : Action) (os e : string)
    (rest : list (string * pattern)) (st : parse_state) (w : world E) :
  class a = HelpAction ->
  (exists nm m,
     consume q ((s, pat_O (OptionTuple (Some a) os (Some e))) :: rest) st w
     = (w, Raise (ArgumentError nm m))) \/
  consume q ((s, pat_O (OptionTuple (Some a) os (Some e))) :: rest) st w =
  (World E (stdout w +:+ format_help q) (stderr w) (external w), Raise (SystemExit 0)).
Proof.
  intros Hc. cbn [consume]. unfold bind at 1 3. unfold consume_optional.
  destruct (consume_explicit_cases e a os rest [] w)
    as [(nm & m & ->)|(args & ts & k & ->)]; [eauto|].
  right. cbn [app]. unfold bind. now rewrite take_help.
Qed.

(** ** The second pass as a whole *)

Lemma selects_cons (a : Action) (t : string * pattern) (toks : list (string * pattern)) :
  selects a toks -> selects a (t :: toks).
Proof. intros (s & os & e & H). exists s, os, e. now right. Qed.

Lemma selects_cons2 (a : Action) (t t' : string * pattern)
    (toks : list (string * pattern)) :
  selects a toks -> selects a (t :: t' :: toks).
Proof. intros H. now apply selects_cons, selects_cons. Qed.

Lemma from_table_tail (t : string * pattern) (toks : list (string * pattern)) :
  from_table q (t :: toks) -> from_table q toks.
Proof. intros H s a os e Hin. apply (H s a os e). now right. Qed.

(** The second pass returns the state [scans] describes, or raises an
    [ArgumentError], or prints the help and exits with status 0 because
    some string selected a help action.  Only the last case writes
    anything. *)
Lemma consume_cases (toks : list (string * pattern)) (st : parse_state) (w : world E) :
  from_table q toks -> long_flags q ->
  (exists st', consume q toks st w = (w, Return st') /\ scans toks st st') \/
  (exists nm m, consume q toks st w = (w, Raise (ArgumentError nm m))) \/
  (consume q toks st w =
     (World E (stdout w +:+ format_help q) (stderr w) (external w),
      Raise (SystemExit 0)) /\
   exists a, class a = HelpAction /\ selects a toks).
Proof.
  intros Htab Hlong.
  remember (length toks) as n eqn:Hn.
  assert (Hle : (length toks <= n)%nat) by lia. clear Hn.
  revert toks st Htab Hle. induction n as [|n IH]; intros toks st Htab Hle.
  { destruct toks; [|cbn in Hle; lia]. left. exists st. split; [reflexivity|constructor]. }
  destruct toks as [|[s pt] rest].
  { left. exists st. split; [reflexivity|constructor]. }
  cbn [length] in Hle.
  pose proof (from_table_tail _ _ Htab) as Htab'.
  assert (Hext : leftover pt ->
    (exists st', consume q ((s, pt) :: rest) st w = (w, Return st')
                 /\ scans ((s, pt) :: rest) st st') \/
    (exists nm m, consume q ((s, pt) :: rest) st w = (w, Raise (ArgumentError nm m))) \/
    (consume q ((s, pt) :: rest) st w =
       (World E (stdout w +:+ format_help q) (stderr w) (external w),
        Raise (SystemExit 0)) /\
     exists a, class a = HelpAction /\ selects a ((s, pt) :: rest))).
  { intros Hl. rewrite step_leftover by assumption.
    destruct (IH rest (add_extra st s) Htab' ltac:(lia))
      as [(st' & -> & Hsc)|[(nm & m & ->)|(-> & a & Ha & Hsel)]].
    - left. exists st'. split; [reflexivity|]. now apply scans_extra.
    - right. left. eauto.
    - right. right. split; [reflexivity|]. exists a. auto using selects_cons. }
  destruct pt as [|[[a|] os e]|]; [now apply Hext| |now apply Hext|now apply Hext].
  clear Hext.
  assert (Hin : In (os, a) (_option_string_actions q)).
  { apply (Htab s a os e). now left. }
  assert (Hstep : forall v rest',
             (length rest' <= n)%nat -> from_table q rest' ->
             (forall st', scans rest' (stored st a v) st' ->
                          scans ((s, pat_O (OptionTuple (Some a) os e)) :: rest) st st') ->
             (forall b, selects b rest' ->
                        selects b ((s, pat_O (OptionTuple (Some a) os e)) :: rest)) ->
    (exists st', consume q rest' (stored st a v) w = (w, Return st')
                 /\ scans ((s, pat_O (OptionTuple (Some a) os e)) :: rest) st st') \/
    (exists nm m, consume q rest' (stored st a v) w = (w, Raise (ArgumentError nm m))) \/
    (consume q rest' (stored st a v) w =
       (World E (stdout w +:+ format_help q) (stderr w) (external w),
        Raise (SystemExit 0)) /\
     exists b, class b = HelpAction
               /\ selects b ((s, pat_O (OptionTuple (Some a) os e)) :: rest))).
  { intros v rest' Hlen Htab'' Hsc Hsel.
    destruct (IH rest' (stored st a v) Htab'' Hlen)
      as [(st' & -> & Hsc')|[(nm & m & ->)|(-> & b & Hb & Hsel')]].
    - left. exists st'. auto.
    - right. left. eauto.
    - right. right. split; [reflexivity|]. exists b. auto. }
  destruct (class a) eqn:Hc.
  - (* store *)
    destruct e as [e|].
    + rewrite step_store_explicit by assumption.
      destruct (converted a e) as [v|] eqn:Hv; [|right; left; eauto].
      apply Hstep; [lia|assumption| |auto using selects_cons].
      intros st' Hsc. now apply scans_explicit with (v := v).
    + destruct rest as [|[arg [| |]] rest'].
      * rewrite step_store_alone by (cbn; auto). right. left. eauto.
      * rewrite step_store_following by assumption.
        destruct (converted a arg) as [v|] eqn:Hv; [|right; left; eauto].
        apply Hstep; [cbn [length] in Hle; lia|now apply from_table_tail in Htab'
                     | |auto using selects_cons2].
        intros st' Hsc. now apply scans_following with (v := v).
      * rewrite step_store_alone by (cbn; auto). right. left. eauto.
      * rewrite step_store_alone by (cbn; auto). right. left. eauto.
  - (* store_true *)
    destruct e as [e|].
    + rewrite step_long_explicit; [right; left; eauto|rewrite Hc; discriminate|].
      now apply (Hlong os a).
    + rewrite step_flag by assumption.
      apply Hstep; [lia|assumption| |auto using selects_cons].
      intros st' Hsc. now apply scans_flag.
  - (* help *)
    assert (Hsel : exists b, class b = HelpAction
                   /\ selects b ((s, pat_O (OptionTuple (Some a) os e)) :: rest)).
    { exists a. split; [assumption|]. exists s, os, e. now left. }
    destruct e as [e|].
    + destruct (step_help_explicit s a os e rest st w Hc) as [(nm & m & ->)| ->].
      * right. left. eauto.
      * right. right. auto.
    + rewrite step_help by assumption. right. right. auto.
Qed.

(** ** What a successful scan guarantees *)

Lemma scans_seen (toks : list (string * pattern)) (st st' : parse_state) :
  scans toks st st' ->
  forall a, In a (seen_actions st') -> In a (seen_actions st) \/ selects a toks.
Proof.
  induction 1 as [st|s pt rest st st' Hl Hsc IH
                  |s a os e v rest st st' Hc Hv Hsc IH
                  |s a os arg v rest st st' Hc Hv Hsc IH
                  |s a os rest st st' Hc Hsc IH]; intros b Hb.
  - now left.
  - destruct (IH b Hb) as [H|H]; [now left|right; now apply selects_cons].
  - destruct (IH b Hb) as [[<-|H]|H]; [right|now left|right; now apply selects_cons].
    exists s, os, (Some e). now left.
  - destruct (IH b Hb) as [[<-|H]|H]; [right|now left|right; now apply selects_cons2].
    exists s, os, None. now left.
  - destruct (IH b Hb) as [[<-|H]|H]; [right|now left|right; now apply selects_cons].
    exists s, os, None. now left.
Qed.

Lemma table_action (os : string) (a : Action) :
  In (os, a) (_option_string_actions q) -> In a (actions q).
Proof.
  unfold _option_string_actions. rewrite in_flat_map.
  intros (a' & Ha' & H). apply in_map_iff in H as (s & [= _ ->] & _). exact Ha'.
Qed.

Lemma converted_ok (a : Action) (arg : string) (v : value) :
  class a = StoreAction -> converted a arg = Some v -> value_ok a v.
Proof.
  unfold converted, value_ok. intros ->.
  destruct (String.eqb arg "--").
  - intros [= <-]. destruct (type a); now left.
  - destruct (type a).
    + intros [= <-]. right. eauto.
    + destruct (int arg) as [i|]; [|discriminate]. intros [= <-]. right. eauto.
Qed.

Lemma stored_ok (st : parse_state) (a : Action) (v : value) :
  distinct_dests q -> In a (actions q) -> value_ok a v ->
  namespace_ok q st -> namespace_ok q (stored st a v).
Proof.
  intros Hd Ha Hv Hok b d Hb Hbq Hbd. unfold stored in *. cbn [namespace seen_actions] in *.
  destruct (dest a) as [da|] eqn:Hda; cbn [setattr].
  - destruct (String.eq_dec da d) as [->|Hne].
    + assert (b = a) as -> by (apply (Hd b a d); assumption).
      exists v. split; [apply lookup_insert_eq|assumption].
    + rewrite lookup_insert_ne by assumption.
      destruct Hb as [<-|Hb]; [congruence|]. now apply Hok.
  - destruct Hb as [<-|Hb]; [congruence|]. now apply Hok.
Qed.

Lemma add_extra_ok (st : parse_state) (s : string) :
  namespace_ok q st -> namespace_ok q (add_extra st s).
Proof. intros H. exact H. Qed.

Lemma scans_namespace_ok (toks : list (string * pattern)) (st st' : parse_state) :
  distinct_dests q -> from_table q toks ->
  scans toks st st' -> namespace_ok q st -> namespace_ok q st'.
Proof.
  intros Hd Htab Hsc. revert Htab.
  induction Hsc as [st|s pt rest st st' Hl Hsc IH
                  |s a os e v rest st st' Hc Hv Hsc IH
                  |s a os arg v rest st st' Hc Hv Hsc IH
                  |s a os rest st st' Hc Hsc IH]; intros Htab Hok.
  - assumption.
  - apply IH; [now apply from_table_tail in Htab|now apply add_extra_ok].
  - apply IH; [now apply from_table_tail in Htab|].
    apply stored_ok; try assumption.
    + apply (table_action os), (Htab s a os (Some e)). now left.
    + now apply (converted_ok a e).
  - apply IH; [now apply from_table_tail, from_table_tail in Htab|].
    apply stored_ok; try assumption.
    + apply (table_action os), (Htab s a os None). now left.
    + now apply (converted_ok a arg).
  - apply IH; [now apply from_table_tail in Htab|].
    apply stored_ok; try assumption.
    + apply (table_action os), (Htab s a os None). now left.
    + unfold value_ok. now rewrite Hc.
Qed.

(** ** From the pattern back to the command line *)

Lemma classify_cons (s : string) (rest : list string) (toks : list (string * pattern)) :
  classify q (s :: rest) = inr toks ->
  (s = "--" /\ toks = (s, pat_dash) :: map (fun a => (a, pat_A)) rest) \/
  (s <> "--" /\ exists t ps,
      _parse_optional q s = inr t /\ classify q rest = inr ps /\
      toks = (s, match t with Some t => pat_O t | None => pat_A end) :: ps).
Proof.
  cbn [classify]. destruct (String.eqb_spec s "--") as [->|Hne].
  - intros [= <-]. now left.
  - destruct (_parse_optional q s) as [m|t]; [discriminate|].
    destruct (classify q rest) as [m|ps]; [discriminate|].
    intros [= <-]. right. split; [assumption|]. now exists t, ps.
Qed.

Lemma classify_nil (argv : list string) : classify q argv = inr [] -> argv = [].
Proof.
  destruct argv as [|s rest]; [reflexivity|].
  intros H. apply classify_cons in H as [[_ H]|(_ & t & ps & _ & _ & H)]; discriminate.
Qed.

Lemma names_action_true (a : Action) (s os : string) (e : option string) :
  _parse_optional q s = inr (Some (OptionTuple (Some a) os e)) ->
  names_action q a s = true.
Proof. unfold names_action. intros ->. now apply bool_decide_eq_true. Qed.

(** An action selected in the pattern is named on the command line. *)
Lemma classify_selects (a : Action) (argv : list string) (toks : list (string * pattern)) :
  classify q argv = inr toks -> selects a toks -> given q a argv = true.
Proof.
  revert toks. induction argv as [|s rest IH]; intros toks Hcl (s' & os & e & Hin).
  - injection Hcl as <-. destruct Hin.
  - apply classify_cons in Hcl as [[-> ->]|(Hne & t & ps & Ht & Hps & ->)].
    + exfalso. destruct Hin as [H|H]; [discriminate|].
      apply in_map_iff in H as (x & H & _). discriminate.
    + unfold given. cbn [option_part].
      apply String.eqb_neq in Hne. rewrite Hne. cbn [existsb].
      apply orb_true_iff. destruct Hin as [H|H].
      * left. destruct t as [t|]; [|discriminate]. injection H as _ ->.
        now apply (names_action_true a s os e).
      * right. apply (IH ps Hps). now exists s', os, e.
Qed.

Lemma values_given_cons (a : Action) (s : string) (rest : list string) :
  values_given q a (s :: rest) =
  if String.eqb s "--" then []
  else if names_action q a s then
    match _parse_optional q s, rest with
    | inr (Some (OptionTuple _ _ (Some e))), _ => e :: values_given q a rest
    | _, v :: _ => v :: values_given q a rest
    | _, [] => values_given q a rest
    end
  else values_given q a rest.
Proof. reflexivity. Qed.

(** After a successful scan every argument string given to a storing
    action was convertible. *)
Lemma scans_values (a : Action) (toks : list (string * pattern)) (st st' : parse_state) :
  class a = StoreAction ->
  scans toks st st' ->
  forall argv, classify q argv = inr toks ->
  forall v, In v (values_given q a argv) -> converted a v <> None.
Proof.
  intros Hca.
  induction 1 as [st|s pt rest st st' Hl Hsc IH
                  |s a0 os e v0 rest st st' Hc Hv Hsc IH
                  |s a0 os arg v0 rest st st' Hc Hv Hsc IH
                  |s a0 os rest st st' Hc Hsc IH]; intros argv Hcl v Hin.
  - apply classify_nil in Hcl as ->. destruct Hin.
  - destruct argv as [|s0 argv]; [discriminate|].
    apply classify_cons in Hcl as [[-> _]|(Hne & t & ps & Ht & Hps & [= <- -> <-])].
    + destruct Hin.
    + rewrite values_given_cons in Hin. apply String.eqb_neq in Hne. rewrite Hne in Hin.
      assert (Hn : names_action q a s = false).
      { unfold names_action. rewrite Ht. destruct t as [[[b|] ? ?]|]; try reflexivity.
        discriminate Hl. }
      rewrite Hn in Hin. now apply (IH argv).
  - destruct argv as [|s0 argv]; [discriminate|].
    apply classify_cons in Hcl as [[-> H]|(Hne & t & ps & Ht & Hps & H)];
      [discriminate|].
    destruct t as [t|]; [|discriminate]. injection H as <- <- <-.
    rewrite values_given_cons in Hin. apply String.eqb_neq in Hne. rewrite Hne in Hin.
    unfold names_action in Hin. rewrite Ht in Hin.
    destruct (bool_decide_reflect (a0 = a)) as [->|Hna].
    + destruct Hin as [<-|Hin]; [congruence|]. now apply (IH argv).
    + now apply (IH argv).
  - destruct argv as [|s0 argv]; [discriminate|].
    apply classify_cons in Hcl as [[-> H]|(Hne & t & ps & Ht & Hps & H)];
      [discriminate|].
    destruct t as [t|]; [|discriminate]. injection H as <- <- <-.
    destruct argv as [|arg0 argv]; [discriminate|].
    apply classify_cons in Hps as [[-> H]|(Hne' & t' & ps' & Ht' & Hps' & H)];
      [discriminate|].
    destruct t' as [t'|]; [discriminate|]. injection H as <- <-.
    assert (Htail : values_given q a (arg :: argv) = values_given q a argv).
    { rewrite values_given_cons. apply String.eqb_neq in Hne'. rewrite Hne'.
      unfold names_action. now rewrite Ht'. }
    rewrite values_given_cons in Hin. apply String.eqb_neq in Hne. rewrite Hne in Hin.
    rewrite Htail in Hin.
    unfold names_action in Hin. rewrite Ht in Hin.
    destruct (bool_decide_reflect (a0 = a)) as [->|Hna].
    + destruct Hin as [<-|Hin]; [congruence|]. now apply (IH argv).
    + now apply (IH argv).
  - destruct argv as [|s0 argv]; [discriminate|].
    apply classify_cons in Hcl as [[-> H]|(Hne & t & ps & Ht & Hps & H)];
      [discriminate|].
    destruct t as [t|]; [|discriminate]. injection H as <- <- <-.
    rewrite values_given_cons in Hin. apply String.eqb_neq in Hne. rewrite Hne in Hin.
    unfold names_action in Hin. rewrite Ht in Hin.
    destruct (bool_decide_reflect (a0 = a)) as [->|Hna]; [congruence|].
    now apply (IH argv).
Qed.

(** ** [parse_args] *)

Lemma error_eq {A} (m : error_message) (w : world E) :
  error (A := A) q m w =
  (World E (stdout w) (stderr w ++ [UsageError (prog q) m]) (external w),
   Raise (SystemExit 2)).
Proof. reflexivity. Qed.

Lemma missing_required_nil (st : parse_state) :
  missing_required q st = [] ->
  forall a, In a (actions q) -> required a = true -> In a (seen_actions st).
Proof.
  unfold missing_required. intros H a Ha Hr.
  apply map_eq_nil in H.
  destruct (decide (a ∈ seen_actions st)) as [Hin|Hnin]; [now apply list_elem_of_In|].
  exfalso. assert (Hf : a ∈ filter (fun a => required a = true /\ a ∉ seen_actions st)
                                   (actions q)).
  { apply list_elem_of_filter. split; [now split|now apply list_elem_of_In]. }
  rewrite H in Hf. now apply not_elem_of_nil in Hf.
Qed.

Lemma inner_cases (argv : list string) (w : world E) :
  long_flags q ->
  (exists toks st',
     _parse_known_args q argv (default_namespace q) w = (w, Return st') /\
     classify q argv = inr toks /\
     scans toks (ParseState (default_namespace q) [] []) st' /\
     missing_required q st' = []) \/
  (exists nm m,
     _parse_known_args q argv (default_namespace q) w
     = (w, Raise (ArgumentError nm m))) \/
  (exists m,
     _parse_known_args q argv (default_namespace q) w =
     (World E (stdout w) (stderr w ++ [UsageError (prog q) m]) (external w),
      Raise (SystemExit 2))) \/
  (_parse_known_args q argv (default_namespace q) w =
     (World E (stdout w +:+ format_help q) (stderr w) (external w),
      Raise (SystemExit 0)) /\
   exists a, class a = HelpAction /\ given q a argv = true).
Proof.
  intros Hlong. unfold _parse_known_args.
  destruct (classify q argv) as [m|toks] eqn:Hcl.
  { right. right. left. exists m. apply error_eq. }
  pose proof (classify_from_table argv toks Hcl) as Htab.
  unfold bind.
  destruct (consume_cases toks (ParseState (default_namespace q) [] []) w Htab Hlong)
    as [(st' & -> & Hsc)|[(nm & m & ->)|(-> & a & Ha & Hsel)]].
  - destruct (missing_required q st') as [|nm0 nms] eqn:Hmiss.
    + left. exists toks, st'. auto.
    + right. right. left. eexists. apply error_eq.
  - right. left. eauto.
  - right. right. right. split; [reflexivity|].
    exists a. split; [assumption|]. now apply (classify_selects a argv toks).
Qed.

(** The three ways [parse_args] can end: it returns a namespace without
    writing anything, or it prints the help and exits with status 0, or
    it reports a usage error and exits with status 2. *)
Lemma parse_args_cases (argv : list string) (w : world E) :
  long_flags q -> distinct_dests q ->
  (exists args,
     parse_args q argv w = (w, Return args) /\
     (forall a d, In a (actions q) -> required a = true -> dest a = Some d ->
                  given q a argv = true /\
                  exists v, args !! d = Some v /\ value_ok a v) /\
     (forall a v, class a = StoreAction -> In v (values_given q a argv) ->
                  converted a v <> None)) \/
  (parse_args q argv w =
     (World E (stdout w +:+ format_help q) (stderr w) (external w),
      Raise (SystemExit 0)) /\
   exists a, class a = HelpAction /\ given q a argv = true) \/
  (exists m,
     parse_args q argv w =
     (World E (stdout w) (stderr w ++ [UsageError (prog q) m]) (external w),
      Raise (SystemExit 2))).
Proof.
  intros Hlong Hdist.
  unfold parse_args, parse_known_args, catch_argument_error, bind.
  destruct (inner_cases argv w Hlong)
    as [(toks & st' & -> & Hcl & Hsc & Hmiss)
       |[(nm & m & ->)|[(m & ->)|(-> & a & Ha & Hg)]]].
  - cbn [ret namespace extras].
    pose proof (classify_from_table argv toks Hcl) as Htab.
    destruct (extras st') as [|x xs].
    + left. exists (namespace st'). split; [reflexivity|]. split.
      * intros a d Ha Hr Hd.
        pose proof (missing_required_nil st' Hmiss a Ha Hr) as Hseen.
        split.
        -- destruct (scans_seen toks _ st' Hsc a Hseen) as [[]|Hsel].
           now apply (classify_selects a argv toks).
        -- apply (scans_namespace_ok toks _ st' Hdist Htab Hsc); try assumption.
           intros b db [].
      * intros a v Hc Hv.
        now apply (scans_values a toks _ st' Hc Hsc argv Hcl).
    + right. right. eexists. apply error_eq.
  - right. right. rewrite error_eq. eexists. reflexivity.
  - right. right. eexists. reflexivity.
  - right. left. split; [reflexivity|]. eauto.
Qed.

End ArgparseFacts.

(* ===================================================================== *)
(** * Properties of the script *)
(* ===================================================================== *)

Section TesterFacts.
Import Py argparse tester.
Variable prog : string.

Lemma parser_actions :
  actions (parser prog) =
  [help_action; clone_name_action; clone_count_action; greet_action].
Proof. reflexivity. Qed.

Lemma parser_long_flags : long_flags (parser prog).
Proof.
  intros os a Hin Hc. cbn in Hin.
  repeat (destruct Hin as [[= <- <-]|Hin]; [try discriminate Hc; try reflexivity|]).
  destruct Hin.
Qed.

Lemma parser_distinct_dests : distinct_dests (parser prog).
Proof.
  intros a b d Ha Hb Hda Hdb. rewrite parser_actions in Ha, Hb. cbn in Ha, Hb.
  repeat (destruct Ha as [<-|Ha]; [|]); try destruct Ha;
    repeat (destruct Hb as [<-|Hb]; [|]); try destruct Hb;
    cbn in Hda, Hdb; congruence.
Qed.

Lemma given_in_actions (q : ArgumentParser) (a : Action) (argv : list string) :
  given q a argv = true -> In a (actions q).
Proof.
  unfold given. rewrite existsb_exists. intros (s & _ & Hs).
  unfold names_action in Hs.
  destruct (_parse_optional q s) as [m|[[[a'|] os e]|]] eqn:Hp; try discriminate.
  apply bool_decide_eq_true in Hs as <-.
  apply (table_action q os), (parse_optional_from_table q s os a' e Hp).
Qed.

Lemma help_action_only (a : Action) :
  In a (actions (parser prog)) -> class a = HelpAction -> a = help_action.
Proof.
  rewrite parser_actions. cbn.
  intros [<-|[<-|[<-|[<-|[]]]]] Hc; try reflexivity; discriminate Hc.
Qed.

(** The outcomes of [parse_args] on the script's parser. *)
Lemma tester_parse_cases {E} (argv : list string) (w : world E) :
  (exists args,
     parse_args (parser prog) argv w = (w, Return args) /\
     (given (parser prog) clone_name_action argv = true /\
      given (parser prog) clone_count_action argv = true /\
      given (parser prog) greet_action argv = true) /\
     (exists v, args !! "clone_name" = Some v /\ (v = EmptyList \/ exists x, v = Str x)) /\
     (exists v, args !! "clone_count" = Some v /\ (v = EmptyList \/ exists i, v = Int i)) /\
     args !! "greet" = Some (Bool true) /\
     (forall v, In v (values_given (parser prog) clone_count_action argv) ->
                v = "--" \/ int v <> None)) \/
  (parse_args (parser prog) argv w = (help_printed prog w, Raise (SystemExit 0)) /\
   given (parser prog) help_action argv = true) \/
  (exists m,
     parse_args (parser prog) argv w = (error_printed prog m w, Raise (SystemExit 2))).
Proof.
  destruct (parse_args_cases (parser prog) argv w parser_long_flags parser_distinct_dests)
    as [(args & Hrun & Hreq & Hval)|[(Hrun & a & Ha & Hg)|(m & Hrun)]].
  - left. exists args. split; [assumption|].
    assert (Hin : forall a, In a [clone_name_action; clone_count_action; greet_action] ->
                            In a (actions (parser prog))).
    { intros a Ha. rewrite parser_actions. now right. }
    destruct (Hreq clone_name_action "clone_name") as (Hg1 & v1 & Hv1 & Hok1);
      [apply Hin; cbn; auto|reflexivity|reflexivity|].
    destruct (Hreq clone_count_action "clone_count") as (Hg2 & v2 & Hv2 & Hok2);
      [apply Hin; cbn; auto|reflexivity|reflexivity|].
    destruct (Hreq greet_action "greet") as (Hg3 & v3 & Hv3 & Hok3);
      [apply Hin; cbn; auto|reflexivity|reflexivity|].
    cbn in Hok1, Hok2, Hok3. subst v3.
    split; [auto|]. split; [eauto|]. split; [eauto|]. split; [assumption|].
    intros v Hv. specialize (Hval clone_count_action v eq_refl Hv).
    unfold converted in Hval. cbn [type clone_count_action] in Hval.
    destruct (String.eqb_spec v "--") as [Heq|_]; [now left|right].
    destruct (int v); [discriminate|contradiction].
  - right. left. split; [exact Hrun|].
    now rewrite <- (help_action_only a (given_in_actions _ a argv Hg) Ha).
  - right. right. exists m. exact Hrun.
Qed.

(** ** The loop on a parsed namespace *)

Lemma run_bodies_ext {E} (b1 b2 : Z -> proc E unit) (l : list Z) (w : world E) :
  (forall i w', b1 i w' = b2 i w') -> run_bodies b1 l w = run_bodies b2 l w.
Proof.
  intros Hb. revert w. induction l as [|i l IH]; intros w; [reflexivity|].
  cbn [run_bodies]. unfold bind. rewrite Hb.
  destruct (b2 i w) as [w' [[]|e]]; [apply IH|reflexivity].
Qed.

Lemma greet_clones_int {E} (args : gmap string value) (v : value) (n : Z) (w : world E) :
  args !! "clone_count" = Some (Int n) ->
  args !! "clone_name" = Some v ->
  greet_clones args w =
  (World E (stdout w +:+ text_of (greetings v n)) (stderr w) (external w), Return tt).
Proof.
  intros Hn Hv. unfold greet_clones, bind at 1 2, getattr at 1.
  rewrite Hn. cbn [ret range_of]. rewrite for_in_range.
  rewrite (run_bodies_ext _ (fun i => print (greeting v i))).
  - apply run_bodies_print.
  - intros i w'. unfold bind, getattr. now rewrite Hv.
Qed.

Lemma greet_clones_list {E} (args : gmap string value) (w : world E) :
  args !! "clone_count" = Some EmptyList ->
  greet_clones args w =
  (w, Raise (TypeError "'list' object cannot be interpreted as an integer")).
Proof.
  intros Hn. unfold greet_clones, bind at 1 2, getattr at 1. now rewrite Hn.
Qed.

(** ** The process *)

Lemma run_accepted {E} (argv : list string) (args : gmap string value)
    (v : value) (n : Z) (w : world E) :
  parse_args (parser prog) argv w = (w, Return args) ->
  args !! "clone_count" = Some (Int n) ->
  args !! "clone_name" = Some v ->
  run_from w prog argv =
  Outcome (World E (stdout w +:+ text_of (greetings v n)) (stderr w) (external w)) 0.
Proof.
  intros Hp Hn Hv. unfold run_from, main, bind. rewrite Hp.
  now rewrite (greet_clones_int args v n w Hn Hv).
Qed.

Lemma run_list_count {E} (argv : list string) (args : gmap string value) (w : world E) :
  parse_args (parser prog) argv w = (w, Return args) ->
  args !! "clone_count" = Some EmptyList ->
  run_from w prog argv =
  Outcome (World E (stdout w)
             (stderr w ++ [Traceback (TypeError
                "'list' object cannot be interpreted as an integer")])
             (external w)) 1.
Proof.
  intros Hp Hn. unfold run_from, main, bind. rewrite Hp.
  now rewrite (greet_clones_list args w Hn).
Qed.

Lemma run_help {E} (argv : list string) (w : world E) :
  parse_args (parser prog) argv w = (help_printed prog w, Raise (SystemExit 0)) ->
  run_from w prog argv = Outcome (help_printed prog w) 0.
Proof. intros Hp. unfold run_from, main, bind. now rewrite Hp. Qed.

Lemma run_error {E} (argv : list string) (m : error_message) (w : world E) :
  parse_args (parser prog) argv w = (error_printed prog m w, Raise (SystemExit 2)) ->
  run_from w prog argv = Outcome (error_printed prog m w) 2.
Proof. intros Hp. unfold run_from, main, bind. now rewrite Hp. Qed.

(** Every run ends in one of four ways. *)
Lemma run_cases {E} (argv : list string) (w : world E) :
  (exists args v n,
     parse_args (parser prog) argv w = (w, Return args) /\
     args !! "clone_name" = Some v /\ args !! "clone_count" = Some (Int n) /\
     args !! "greet" = Some (Bool true) /\
     run_from w prog argv =
     Outcome (World E (stdout w +:+ text_of (greetings v n)) (stderr w) (external w)) 0) \/
  (exists args,
     parse_args (parser prog) argv w = (w, Return args) /\
     args !! "clone_count" = Some EmptyList /\
     run_from w prog argv =
     Outcome (World E (stdout w)
                (stderr w ++ [Traceback (TypeError
                   "'list' object cannot be interpreted as an integer")])
                (external w)) 1) \/
  (given (parser prog) help_action argv = true /\
   run_from w prog argv = Outcome (help_printed prog w) 0) \/
  (exists m, run_from w prog argv = Outcome (error_printed prog m w) 2).
Proof.
  destruct (tester_parse_cases argv w)
    as [(args & Hp & _ & (v & Hv & _) & (c & Hc & [->|[n ->]]) & Hg & _)
       |[(Hp & Hg)|(m & Hp)]].
  - right. left. exists args. split; [assumption|]. split; [assumption|].
    now apply (run_list_count argv args).
  - left. exists args, v, n. repeat split; try assumption.
    now apply (run_accepted argv args).
  - right. right. left. split; [assumption|]. now apply run_help.
  - right. right. right. exists m. now apply run_error.
Qed.

End TesterFacts.

(* ===================================================================== *)
(** * The claims of the specification *)
(* ===================================================================== *)

Section Claims.
Import Py argparse tester.

Lemma greeting_no_LF (X : string) (i : Z) :
  contains LF X = false -> contains LF (greeting (Str X) i) = false.
Proof.
  intros HX. unfold greeting. cbn [format].
  rewrite !contains_append, HX, str_no_LF. reflexivity.
Qed.

Lemma greetings_no_LF (X : string) (n : Z) :
  contains LF X = false ->
  Forall (fun r => contains LF r = false) (greetings (Str X) n).
Proof.
  intros HX. unfold greetings. apply Forall_forall. intros r Hr.
  apply list_elem_of_In, in_map_iff in Hr as (i & <- & _). now apply greeting_no_LF.
Qed.

Lemma out_accepted (prog : string) (argv : list string) (args : gmap string value)
    (v : value) (n : Z) :
  accepts prog argv args ->
  args !! "clone_count" = Some (Int n) ->
  args !! "clone_name" = Some v ->
  run prog argv = Outcome (World unit (text_of (greetings v n)) [] tt) 0.
Proof.
  intros Hp Hn Hv. unfold run.
  now rewrite (run_accepted prog argv args v n (initial tt) Hp Hn Hv).
Qed.

Lemma advance_within (k : nat) (it : range_iterator) :
  (k <= remaining it)%nat ->
  advance k it = Some (RangeIterator (index it + Z.of_nat k) (stop it)).
Proof.
  revert it. induction k as [|k IH]; intros it Hk.
  - cbn. rewrite Z.add_0_r. now destruct it.
  - cbn [advance]. unfold next. unfold remaining in Hk.
    destruct (Z.ltb_spec (index it) (stop it)) as [Hlt|Hge]; [|lia].
    rewrite IH by (unfold remaining; cbn [index stop]; lia).
    cbn [index stop]. f_equal. f_equal. lia.
Qed.

(** ** Valid invocations exist for every name and count *)

(** The long options with attached arguments accept any name other than
    the bare ["--"] and any integer literal. *)
Lemma long_form_valid (prog X s : string) (N : Z) :
  X <> "--" -> int s = Some N ->
  valid_invocation prog
    ["--clone_name=" +:+ X; "--clone_count=" +:+ s; "--greet"] X N.
Proof.
  intros HX Hs.
  assert (Hs' : s <> "--") by (intros ->; discriminate Hs).
  exists (<["greet" := Bool true]>
            (<["clone_count" := Int N]>
               (<["clone_name" := Str X]> (default_namespace (parser prog))))).
  split; [|repeat split; vm_compute; reflexivity].
  unfold accepts, parse_args, parse_known_args, catch_argument_error,
    _parse_known_args, bind.
  assert (Hcl : classify (parser prog)
                  ["--clone_name=" +:+ X; "--clone_count=" +:+ s; "--greet"]
                = inr [("--clone_name=" +:+ X,
                        pat_O (OptionTuple (Some clone_name_action) "--clone_name" (Some X)));
                       ("--clone_count=" +:+ s,
                        pat_O (OptionTuple (Some clone_count_action) "--clone_count" (Some s)));
                       ("--greet",
                        pat_O (OptionTuple (Some greet_action) "--greet" None))])
    by (vm_compute; reflexivity).
  rewrite Hcl.
  rewrite step_store_explicit by reflexivity.
  assert (Hc1 : converted clone_name_action X = Some (Str X)).
  { unfold converted. apply String.eqb_neq in HX. now rewrite HX. }
  rewrite Hc1. rewrite step_store_explicit by reflexivity.
  assert (Hc2 : converted clone_count_action s = Some (Int N)).
  { unfold converted. apply String.eqb_neq in Hs'. rewrite Hs'. cbn. now rewrite Hs. }
  rewrite Hc2. rewrite step_flag by reflexivity.
  vm_compute. reflexivity.
Qed.

(** Every name other than ["--"] and every count whose numeral stays
    within the digit limit of [int] make a valid invocation. *)
Lemma every_name_and_count (prog X : string) (N : Z) :
  X <> "--" ->
  (String.length (str (Z.abs N)) <= int_max_str_digits)%nat ->
  valid_invocation prog
    ["--clone_name=" +:+ X; "--clone_count=" +:+ str N; "--greet"] X N.
Proof. intros HX HN. apply long_form_valid; [assumption|now apply int_str]. Qed.

(** A string that does not start with a dash is an argument. *)
Lemma plain_is_argument (q : ArgumentParser) (c : ascii) (s : string) :
  c <> "-"%char -> _parse_optional q (String c s) = inr None.
Proof.
  intros Hc. unfold _parse_optional, is_prefix_char.
  apply Ascii.eqb_neq in Hc. now rewrite Hc.
Qed.

(** The short options followed by their arguments, for a name and a
    count that read as arguments. *)
Lemma short_form_valid (prog X s : string) (N : Z) :
  X <> "--" -> _parse_optional (parser prog) X = inr None ->
  _parse_optional (parser prog) s = inr None -> int s = Some N ->
  valid_invocation prog ["-c"; X; "-n"; s; "--greet"] X N.
Proof.
  intros HX HpX Hps Hs.
  assert (Hs' : s <> "--") by (intros ->; discriminate Hs).
  exists (<["greet" := Bool true]>
            (<["clone_count" := Int N]>
               (<["clone_name" := Str X]> (default_namespace (parser prog))))).
  split; [|repeat split; vm_compute; reflexivity].
  unfold accepts, parse_args, parse_known_args, catch_argument_error,
    _parse_known_args, bind.
  assert (Hcl : classify (parser prog) ["-c"; X; "-n"; s; "--greet"]
                = inr [("-c", pat_O (OptionTuple (Some clone_name_action) "-c" None));
                       (X, pat_A);
                       ("-n", pat_O (OptionTuple (Some clone_count_action) "-n" None));
                       (s, pat_A);
                       ("--greet",
                        pat_O (OptionTuple (Some greet_action) "--greet" None))]).
  { cbn [classify]. apply String.eqb_neq in HX, Hs'. rewrite HX, Hs', HpX, Hps.
    vm_compute. reflexivity. }
  rewrite Hcl.
  rewrite step_store_following by reflexivity.
  assert (Hc1 : converted clone_name_action X = Some (Str X)).
  { unfold converted. apply String.eqb_neq in HX. now rewrite HX. }
  rewrite Hc1. rewrite step_store_following by reflexivity.
  assert (Hc2 : converted clone_count_action s = Some (Int N)).
  { unfold converted. apply String.eqb_neq in Hs'. rewrite Hs'. cbn. now rewrite Hs. }
  rewrite Hc2. rewrite step_flag by reflexivity.
  vm_compute. reflexivity.
Qed.

(** No run touches anything outside the process, and what is on the
    streams is only ever extended. *)
Lemma streams_only_grow {E : Type} (w : world E) (prog : string) (argv : list string) :
  external (final (run_from w prog argv)) = external w /\
  (exists text, stdout (final (run_from w prog argv)) = stdout w +:+ text) /\
  (exists ds, stderr (final (run_from w prog argv)) = stderr w ++ ds).
Proof.
  destruct (run_cases prog argv w)
    as [(args & v & n & _ & _ & _ & _ & ->)
       |[(args & _ & _ & ->)|[(_ & ->)|(m & ->)]]];
    cbn [final external stderr stdout help_printed error_printed];
    (split; [reflexivity|]); split; eauto;
    try (exists ""; now rewrite append_nil_r);
    try (exists []; now rewrite app_nil_r).
Qed.

(** ** Sample runs *)

Example run_help_first :
  run "tester.py" ["-h"; "-n"; "abc"]
  = Outcome (World unit (format_help (parser "tester.py")) [] tt) 0.
Proof. vm_compute. reflexivity. Qed.

Example run_error_first :
  run "tester.py" ["-n"; "abc"; "-h"]
  = Outcome (World unit ""
               [UsageError "tester.py"
                  (ArgumentErrorMessage "-n/--clone_count" (InvalidValue "int" "abc"))]
               tt) 2.
Proof. vm_compute. reflexivity. Qed.

Example run_nothing_given :
  err (run "tester.py" [])
  = [UsageError "tester.py"
       (RequiredArguments ["-c/--clone_name"; "-n/--clone_count"; "--greet"])].
Proof. vm_compute. reflexivity. Qed.

Example run_abbreviations :
  out (run "tester.py" ["-cBob"; "--clone_c=1"; "--g"]) = text_of ["👽 says: Hello, Bob0!"].
Proof. vm_compute. reflexivity. Qed.

Example run_ambiguous :
  err (run "tester.py" ["--clone"; "Bob"])
  = [UsageError "tester.py"
       (AmbiguousOption "--clone" ["--clone_name"; "--clone_count"])].
Proof. vm_compute. reflexivity. Qed.

Example run_cluster :
  err (run "tester.py" ["-hx"])
  = [UsageError "tester.py"
       (ArgumentErrorMessage "-h/--help" (IgnoredExplicitArgument "x"))].
Proof. vm_compute. reflexivity. Qed.

Example run_negative_count :
  run "tester.py" ["-c"; "Bob"; "-n"; "-3"; "--greet"]
  = Outcome (World unit "" [] tt) 0.
Proof. vm_compute. reflexivity. Qed.

Example run_bare_dashes :
  err (run "tester.py" ["-c"; "Bob"; "-n"; "0"; "--greet"; "--"])
  = [UsageError "tester.py" (UnrecognizedArguments ["--"])].
Proof. vm_compute. reflexivity. Qed.

Example run_list_as_count :
  run "tester.py" ["-c"; "Bob"; "-n--"; "--greet"]
  = Outcome (World unit ""
               [Traceback (TypeError "'list' object cannot be interpreted as an integer")]
               tt) 1.
Proof. vm_compute. reflexivity. Qed.

Example int_samples :
  map int ["12"; "-0"; "1__0"; "_1"; "1_"; ""; " 7 "; "- 7"; "0x1"; "007"; "+5"; "1_0"]
  = [Some 12; Some 0; None; None; None; None; Some 7; None; None; Some 7; Some 5; Some 10].
Proof. vm_compute. reflexivity. Qed.

(** C1 (as amended).  For every valid invocation with name [X] free of
    line feeds and count [N >= 0], the run exits with status 0 and
    standard output consists of exactly [N] lines, the [i]-th of which
    is the greeting of [X] with index [i], for [i] ascending from 0 to
    [N - 1]. *)
Theorem c1_lines_of_valid_invocation (prog : string) (argv : list string)
    (X : string) (N : Z) :
  valid_invocation prog argv X N ->
  0 <= N ->
  contains LF X = false ->
  exit_code (run prog argv) = 0 /\
  lines (out (run prog argv)) = greetings (Str X) N /\
  length (lines (out (run prog argv))) = Z.to_nat N /\
  forall i, 0 <= i < N ->
    nth_error (lines (out (run prog argv))) (Z.to_nat i)
    = Some ("👽 says: Hello, " +:+ X +:+ str i +:+ "!").
Proof.
  intros (args & Hp & Hname & Hcount & _) HN HX.
  rewrite (out_accepted prog argv args (Str X) N Hp Hcount Hname).
  unfold out. cbn [final exit_code stdout].
  rewrite (lines_text_of _ (greetings_no_LF X N HX)).
  split; [reflexivity|]. split; [reflexivity|]. split.
  - unfold greetings. rewrite length_map, length_indices. lia.
  - intros i Hi. unfold greetings.
    rewrite nth_error_map, (nth_error_indices N i Hi). reflexivity.
Qed.

(** C1 fails as stated: with the two-line name "a<LF>b" and count 1, a
    valid invocation writes two lines, none of them the greeting. *)
Lemma c1_counterexample :
  let argv := ["-c"; String "a" (String LF "b"); "-n"; "1"; "--greet"] in
  valid_invocation "tester.py" argv (String "a" (String LF "b")) 1 /\
  lines (out (run "tester.py" argv)) = ["👽 says: Hello, a"; "b0!"] /\
  length (lines (out (run "tester.py" argv))) <> Z.to_nat 1.
Proof.
  cbv zeta. split.
  - exists (namespace_of "tester.py"
              ["-c"; String "a" (String LF "b"); "-n"; "1"; "--greet"]).
    repeat split; vm_compute; reflexivity.
  - split; [vm_compute; reflexivity|vm_compute; discriminate].
Qed.

(** The theorem at work on [-c Bob -n 3 --greet]. *)
Lemma c1_witness :
  let argv := ["-c"; "Bob"; "-n"; "3"; "--greet"] in
  valid_invocation "tester.py" argv "Bob" 3 /\
  0 <= 3 /\
  contains LF "Bob" = false /\
  lines (out (run "tester.py" argv)) = greetings (Str "Bob") 3.
Proof.
  cbv zeta.
  assert (Hv : valid_invocation "tester.py" ["-c"; "Bob"; "-n"; "3"; "--greet"] "Bob" 3).
  { exists (namespace_of "tester.py" ["-c"; "Bob"; "-n"; "3"; "--greet"]).
    repeat split; vm_compute; reflexivity. }
  split; [exact Hv|]. split; [lia|]. split; [reflexivity|].
  apply (c1_lines_of_valid_invocation "tester.py" _ "Bob" 3 Hv); [lia|reflexivity].
Defined.




(** C3.  For every valid invocation whose count is zero or negative the
    run writes no line at all and exits with status 0. *)
Theorem c3_nonpositive_count (prog : string) (argv : list string)
    (X : string) (N : Z) :
  valid_invocation prog argv X N ->
  N <= 0 ->
  exit_code (run prog argv) = 0 /\
  out (run prog argv) = "" /\
  lines (out (run prog argv)) = [] /\
  err (run prog argv) = [].
Proof.
  intros (args & Hp & Hname & Hcount & _) HN.
  rewrite (out_accepted prog argv args (Str X) N Hp Hcount Hname).
  unfold out, err, greetings. cbn [final exit_code stdout stderr].
  rewrite (indices_nonpositive N HN). repeat split; reflexivity.
Qed.

(** The theorem at work on a negative count. *)
Lemma c3_witness :
  let argv := ["-c"; "Bob"; "-n"; "-2"; "--greet"] in
  valid_invocation "tester.py" argv "Bob" (-2) /\
  -2 <= 0 /\
  exit_code (run "tester.py" argv) = 0 /\
  out (run "tester.py" argv) = "".
Proof.
  cbv zeta.
  assert (Hv : valid_invocation "tester.py" ["-c"; "Bob"; "-n"; "-2"; "--greet"]
                 "Bob" (-2)).
  { exists (namespace_of "tester.py" ["-c"; "Bob"; "-n"; "-2"; "--greet"]).
    repeat split; vm_compute; reflexivity. }
  split; [exact Hv|]. split; [lia|].
  destruct (c3_nonpositive_count "tester.py" _ "Bob" (-2) Hv) as (H1 & H2 & _); [lia|].
  split; assumption.
Defined.

(** C4 (as amended).  When no help option is given, an invocation
    without [--greet] is a usage error: the run exits with status 2,
    writes nothing to standard output, and the parser accepts no such
    command line; the flag never takes the value [False]. *)
Theorem c4_greet_is_required (prog : string) (argv : list string) :
  given (parser prog) help_action argv = false ->
  given (parser prog) greet_action argv = false ->
  exit_code (run prog argv) = 2 /\
  out (run prog argv) = "" /\
  (exists m, err (run prog argv) = [UsageError prog m]) /\
  forall args, ~ accepts prog argv args.
Proof.
  intros Hhelp Hgreet. unfold run, accepts.
  destruct (tester_parse_cases prog argv (initial tt))
    as [(args & _ & (_ & _ & Hg3) & _)|[(_ & Hg)|(m & Hp)]]; try congruence.
  rewrite (run_error prog argv m (initial tt) Hp).
  split; [reflexivity|]. split; [reflexivity|]. split; [now exists m|].
  intros args Ha. rewrite Hp in Ha. discriminate.
Qed.

(** C4 fails as stated: valid [clone_name] and [clone_count] followed by
    [-h], without [--greet], exit with status 0 after printing the help
    on standard output. *)
Lemma c4_counterexample :
  let argv := ["-c"; "Bob"; "-n"; "3"; "-h"] in
  given (parser "tester.py") greet_action argv = false /\
  given (parser "tester.py") clone_name_action argv = true /\
  values_given (parser "tester.py") clone_count_action argv = ["3"] /\
  int "3" = Some 3 /\
  exit_code (run "tester.py" argv) = 0 /\
  out (run "tester.py" argv) = format_help (parser "tester.py") /\
  out (run "tester.py" argv) <> "".
Proof. cbv zeta. repeat split; vm_compute; (reflexivity || discriminate). Qed.

(** The theorem at work on [-c Bob -n 3]: the only error is the missing
    flag. *)
Lemma c4_witness :
  let argv := ["-c"; "Bob"; "-n"; "3"] in
  given (parser "tester.py") help_action argv = false /\
  given (parser "tester.py") greet_action argv = false /\
  exit_code (run "tester.py" argv) = 2 /\
  out (run "tester.py" argv) = "" /\
  err (run "tester.py" argv) = [UsageError "tester.py" (RequiredArguments ["--greet"])].
Proof.
  cbv zeta.
  assert (Hh : given (parser "tester.py") help_action ["-c"; "Bob"; "-n"; "3"] = false)
    by (vm_compute; reflexivity).
  assert (Hg : given (parser "tester.py") greet_action ["-c"; "Bob"; "-n"; "3"] = false)
    by (vm_compute; reflexivity).
  split; [exact Hh|]. split; [exact Hg|].
  destruct (c4_greet_is_required "tester.py" ["-c"; "Bob"; "-n"; "3"] Hh Hg)
    as (Hcode & Hout & _ & _).
  split; [exact Hcode|]. split; [exact Hout|]. vm_compute. reflexivity.
Defined.




(** C6.  A valid invocation with name "Bob" and count 3 writes exactly
    the three greetings of Bob0, Bob1 and Bob2, in that order. *)
Theorem c6_bob_three (prog : string) (argv : list string) :
  valid_invocation prog argv "Bob" 3 ->
  lines (out (run prog argv))
  = ["👽 says: Hello, Bob0!"; "👽 says: Hello, Bob1!"; "👽 says: Hello, Bob2!"] /\
  out (run prog argv)
  = text_of ["👽 says: Hello, Bob0!"; "👽 says: Hello, Bob1!"; "👽 says: Hello, Bob2!"] /\
  exit_code (run prog argv) = 0.
Proof.
  intros (args & Hp & Hname & Hcount & _).
  rewrite (out_accepted prog argv args (Str "Bob") 3 Hp Hcount Hname).
  repeat split; vm_compute; reflexivity.
Qed.

(** The theorem at work on [-c Bob -n 3 --greet]. *)
Lemma c6_witness :
  let argv := ["-c"; "Bob"; "-n"; "3"; "--greet"] in
  valid_invocation "tester.py" argv "Bob" 3 /\
  lines (out (run "tester.py" argv))
  = ["👽 says: Hello, Bob0!"; "👽 says: Hello, Bob1!"; "👽 says: Hello, Bob2!"].
Proof.
  cbv zeta.
  assert (Hv : valid_invocation "tester.py" ["-c"; "Bob"; "-n"; "3"; "--greet"] "Bob" 3).
  { exists (namespace_of "tester.py" ["-c"; "Bob"; "-n"; "3"; "--greet"]).
    repeat split; vm_compute; reflexivity. }
  split; [exact Hv|].
  exact (proj1 (c6_bob_three "tester.py" _ Hv)).
Defined.



(** C8.  For every integer count [n], negative ones included, the loop
    of the script returns after exactly [max n 0] iterations: that many
    calls of [next] yield an index, the following one finds the iterator
    exhausted, and one greeting per iteration has been written. *)
Theorem c8_loop_terminates {E : Type} (w : world E) (args : gmap string value)
    (v : value) (n : Z) :
  args !! "clone_count" = Some (Int n) ->
  args !! "clone_name" = Some v ->
  (exists it_end,
     advance (Z.to_nat (Z.max n 0)) (range n) = Some it_end /\
     next it_end = None) /\
  greet_clones args w =
    (World E (stdout w +:+ text_of (greetings v n)) (stderr w) (external w),
     Return tt) /\
  length (greetings v n) = Z.to_nat (Z.max n 0).
Proof.
  intros Hn Hv. split; [|split].
  - exists (RangeIterator (0 + Z.of_nat (Z.to_nat (Z.max n 0))) n). split.
    + apply (advance_within _ (range n)). unfold remaining, range. cbn [index stop]. lia.
    + unfold next. cbn [index stop].
      destruct (Z.ltb_spec (0 + Z.of_nat (Z.to_nat (Z.max n 0))) n); [lia|reflexivity].
  - now apply greet_clones_int.
  - unfold greetings. now rewrite length_map, length_indices.
Qed.

(** The theorem at work on a negative count: no iteration at all. *)
Lemma c8_witness :
  let args : gmap string value :=
    <["clone_count" := Int (-4)]> (<["clone_name" := Str "Bob"]> ∅) in
  args !! "clone_count" = Some (Int (-4)) /\
  args !! "clone_name" = Some (Str "Bob") /\
  greet_clones args (initial tt) = (initial tt, Return tt) /\
  length (greetings (Str "Bob") (-4)) = 0%nat.
Proof.
  cbv zeta.
  assert (Hn : (<["clone_count" := Int (-4)]> (<["clone_name" := Str "Bob"]> ∅)
                : gmap string value) !! "clone_count" = Some (Int (-4)))
    by (vm_compute; reflexivity).
  assert (Hv : (<["clone_count" := Int (-4)]> (<["clone_name" := Str "Bob"]> ∅)
                : gmap string value) !! "clone_name" = Some (Str "Bob"))
    by (vm_compute; reflexivity).
  split; [exact Hn|]. split; [exact Hv|].
  destruct (c8_loop_terminates (initial tt) _ (Str "Bob") (-4) Hn Hv)
    as (_ & Hrun & Hlen).
  split; [exact Hrun|exact Hlen].
Defined.

(** C9.  The loop reads only [clone_name] and [clone_count]: on two
    namespaces that agree on these, whatever [greet] holds, it does the
    same; and two accepted command lines whose namespaces agree on them
    produce the same standard output and exit status. *)
Theorem c9_output_determined :
  (forall (E : Type) (w : world E) (args1 args2 : gmap string value),
     args1 !! "clone_name" = args2 !! "clone_name" ->
     args1 !! "clone_count" = args2 !! "clone_count" ->
     greet_clones args1 w = greet_clones args2 w) /\
  (forall prog1 argv1 args1 prog2 argv2 args2,
     accepts prog1 argv1 args1 ->
     accepts prog2 argv2 args2 ->
     args1 !! "clone_name" = args2 !! "clone_name" ->
     args1 !! "clone_count" = args2 !! "clone_count" ->
     out (run prog1 argv1) = out (run prog2 argv2) /\
     exit_code (run prog1 argv1) = exit_code (run prog2 argv2)).
Proof.
  assert (Hloop : forall (E : Type) (w : world E) (args1 args2 : gmap string value),
             args1 !! "clone_name" = args2 !! "clone_name" ->
             args1 !! "clone_count" = args2 !! "clone_count" ->
             greet_clones args1 w = greet_clones args2 w).
  { intros E w args1 args2 Hname Hcount.
    unfold greet_clones, getattr. now rewrite Hname, Hcount. }
  split; [exact Hloop|].
  intros prog1 argv1 args1 prog2 argv2 args2 Hp1 Hp2 Hname Hcount.
  unfold run, run_from, main, bind, accepts in *.
  rewrite Hp1, Hp2, (Hloop unit (initial tt) args1 args2 Hname Hcount).
  destruct (greet_clones args2 (initial tt)) as [w' [[]|[]]]; split; reflexivity.
Qed.

(** The theorem at work on two namespaces that differ in [greet] only. *)
Lemma c9_witness :
  let args1 : gmap string value :=
    <["greet" := Bool true]>
      (<["clone_count" := Int 2]> (<["clone_name" := Str "Bob"]> ∅)) in
  let args2 : gmap string value :=
    <["greet" := Bool false]>
      (<["clone_count" := Int 2]> (<["clone_name" := Str "Bob"]> ∅)) in
  args1 !! "greet" <> args2 !! "greet" /\
  args1 !! "clone_name" = args2 !! "clone_name" /\
  args1 !! "clone_count" = args2 !! "clone_count" /\
  greet_clones args1 (initial tt) = greet_clones args2 (initial tt).
Proof.
  cbv zeta.
  split; [vm_compute; discriminate|].
  split; [vm_compute; reflexivity|]. split; [vm_compute; reflexivity|].
  apply (proj1 c9_output_determined); vm_compute; reflexivity.
Defined.

(** C10.  The name is interpolated verbatim: for every valid invocation
    with name [S] and count [N], standard output is the concatenation,
    for [i] from 0 to [N - 1], of the prefix, [S], the decimal numeral
    of [i], an exclamation mark and a line feed.  Consequently a name
    that contains a line feed yields more lines than [N]. *)
Theorem c10_verbatim_interpolation :
  (forall prog argv S N,
     valid_invocation prog argv S N ->
     out (run prog argv)
     = text_of (map (fun i => "👽 says: Hello, " +:+ S +:+ str i +:+ "!")
                    (indices N))) /\
  (exists argv S N,
     valid_invocation "tester.py" argv S N /\
     contains LF S = true /\
     Z.of_nat (length (lines (out (run "tester.py" argv)))) > N).
Proof.
  split.
  - intros prog argv S N (args & Hp & Hname & Hcount & _).
    now rewrite (out_accepted prog argv args (Str S) N Hp Hcount Hname).
  - exists ["-c"; String "a" (String LF "b"); "-n"; "2"; "--greet"],
           (String "a" (String LF "b")), 2.
    split; [|split; vm_compute; reflexivity].
    exists (namespace_of "tester.py"
              ["-c"; String "a" (String LF "b"); "-n"; "2"; "--greet"]).
    repeat split; vm_compute; reflexivity.
Qed.

(** The theorem at work on a name with a space and a count with
    leading white space, both attached to long options. *)
Lemma c10_witness :
  let argv := ["--clone_name=Al ice"; "--clone_count= 2"; "--greet"] in
  valid_invocation "tester.py" argv "Al ice" 2 /\
  out (run "tester.py" argv)
  = text_of ["👽 says: Hello, Al ice0!"; "👽 says: Hello, Al ice1!"].
Proof.
  cbv zeta.
  assert (Hv : valid_invocation "tester.py"
                 ["--clone_name=Al ice"; "--clone_count= 2"; "--greet"] "Al ice" 2).
  { exists (namespace_of "tester.py"
              ["--clone_name=Al ice"; "--clone_count= 2"; "--greet"]).
    repeat split; vm_compute; reflexivity. }
  split; [exact Hv|].
  rewrite (proj1 c10_verbatim_interpolation "tester.py" _ "Al ice" 2 Hv).
  vm_compute. reflexivity.
Defined.

End Claims.

(* ===================================================================== *)
(** * Further properties of the parser *)
(* ===================================================================== *)

Section ScanFacts.
Import Py argparse.
Context {E : Type}.
Variable q : ArgumentParser.

(** The relational account is complete: a scan that [scans] describes is
    what [consume] computes. *)
Lemma scans_consume (toks : list (string * pattern)) (st st' : parse_state)
    (w : world E) :
  scans toks st st' -> consume q toks st w = (w, Return st').
Proof.
  induction 1 as [st|s pt rest st st' Hl Hsc IH
                  |s a os e v rest st st' Hc Hv Hsc IH
                  |s a os arg v rest st st' Hc Hv Hsc IH
                  |s a os rest st st' Hc Hsc IH].
  - reflexivity.
  - now rewrite step_leftover.
  - rewrite step_store_explicit by assumption. now rewrite Hv.
  - rewrite step_store_following by assumption. now rewrite Hv.
  - now rewrite step_flag.
Qed.

Lemma scans_app (t1 t2 : list (string * pattern)) (st st' st'' : parse_state) :
  scans t1 st st' -> scans t2 st' st'' -> scans (t1 ++ t2) st st''.
Proof.
  induction 1; intros H2; cbn [app]; try assumption.
  - apply scans_extra; auto.
  - eapply scans_explicit; eauto.
  - eapply scans_following; eauto.
  - apply scans_flag; auto.
Qed.

(** Strings that no option can take end up among the extras. *)
Lemma scans_extras (toks : list (string * pattern)) (st st' : parse_state) :
  scans toks st st' ->
  (forall x, In x (extras st) -> In x (extras st')) /\
  (forall s pt, In (s, pt) toks -> leftover pt -> pt <> pat_A -> In s (extras st')).
Proof.
  induction 1 as [st|s pt rest st st' Hl Hsc [IH1 IH2]
                  |s a os e v rest st st' Hc Hv Hsc [IH1 IH2]
                  |s a os arg v rest st st' Hc Hv Hsc [IH1 IH2]
                  |s a os rest st st' Hc Hsc [IH1 IH2]].
  - split; [auto|]. intros s pt [].
  - split.
    + intros x Hx. apply IH1. cbn. apply in_or_app. now left.
    + intros s0 pt0 [[= <- <-]|Hin] Hl0 Hne.
      * apply IH1. cbn. apply in_or_app. right. now left.
      * now apply (IH2 s0 pt0).
  - split; [exact IH1|].
    intros s0 pt0 [[= <- <-]|Hin] Hl0 Hne; [discriminate Hl0|now apply (IH2 s0 pt0)].
  - split; [exact IH1|].
    intros s0 pt0 [[= <- <-]|[[= <- <-]|Hin]] Hl0 Hne;
      [discriminate Hl0|contradiction|now apply (IH2 s0 pt0)].
  - split; [exact IH1|].
    intros s0 pt0 [[= <- <-]|Hin] Hl0 Hne; [discriminate Hl0|now apply (IH2 s0 pt0)].
Qed.

Lemma missing_required_nil_iff (st : parse_state) :
  missing_required q st = [] <->
  forall a, In a (actions q) -> required a = true -> In a (seen_actions st).
Proof.
  split; [apply missing_required_nil|].
  intros H. unfold missing_required.
  destruct (filter _ (actions q)) as [|a l] eqn:Hf; [reflexivity|exfalso].
  assert (Ha : a ∈ filter (fun a => required a = true /\ a ∉ seen_actions st)
                 (actions q)) by (rewrite Hf; left).
  apply list_elem_of_filter in Ha as [[Hr Hn] Ha].
  apply Hn, list_elem_of_In, H; [now apply list_elem_of_In|assumption].
Qed.

(** What it takes for [parse_args] to return. *)
Lemma parse_args_returns (argv : list string) (args : gmap string value)
    (w w' : world E) :
  long_flags q ->
  parse_args q argv w = (w', Return args) ->
  w' = w /\
  exists toks st',
    classify q argv = inr toks /\
    scans toks (ParseState (default_namespace q) [] []) st' /\
    missing_required q st' = [] /\
    extras st' = [] /\
    namespace st' = args.
Proof.
  intros Hlong.
  unfold parse_args, parse_known_args, catch_argument_error, bind.
  destruct (inner_cases q argv w Hlong)
    as [(toks & st' & -> & Hcl & Hsc & Hmiss)
       |[(nm & m & ->)|[(m & ->)|(-> & _)]]]; try discriminate.
  - cbn [ret namespace extras].
    destruct (extras st') as [|x xs] eqn:Hx; [|discriminate].
    intros [= <- <-]. split; [reflexivity|]. exists toks, st'. auto.
Qed.

Lemma parse_args_of_scan (argv : list string) (toks : list (string * pattern))
    (st' : parse_state) (w : world E) :
  classify q argv = inr toks ->
  scans toks (ParseState (default_namespace q) [] []) st' ->
  missing_required q st' = [] ->
  extras st' = [] ->
  parse_args q argv w = (w, Return (namespace st')).
Proof.
  intros Hcl Hsc Hmiss Hx.
  unfold parse_args, parse_known_args, catch_argument_error, _parse_known_args, bind.
  rewrite Hcl. unfold bind. rewrite (scans_consume toks _ st' w Hsc).
  rewrite Hmiss. cbn [ret]. now rewrite Hx.
Qed.

(** Classification goes string by string up to the first ["--"]. *)
Lemma classify_app (l1 l2 : list string) (t1 : list (string * pattern)) :
  ~ In "--" l1 ->
  classify q l1 = inr t1 ->
  classify q (l1 ++ l2) =
  match classify q l2 with
  | inl m => inl m
  | inr t2 => inr (t1 ++ t2)
  end.
Proof.
  revert t1. induction l1 as [|s l1 IH]; intros t1 Hno Hcl.
  - injection Hcl as <-. cbn [app]. now destruct (classify q l2).
  - apply classify_cons in Hcl as [[-> _]|(Hne & t & ps & Ht & Hps & ->)].
    + exfalso. apply Hno. now left.
    + cbn [app classify]. apply String.eqb_neq in Hne. rewrite Hne, Ht.
      rewrite (IH ps) by (auto; intros H; apply Hno; now right).
      now destruct (classify q l2).
Qed.

(** A classification error anywhere before the first ["--"] makes the
    whole first pass fail. *)
Lemma classify_fails (argv : list string) (s : string) (m : error_message) :
  In s (option_part argv) ->
  _parse_optional q s = inl m ->
  exists m', classify q argv = inl m'.
Proof.
  induction argv as [|s0 rest IH]; [intros []|].
  cbn [option_part classify]. destruct (String.eqb s0 "--"); [intros []|].
  intros [->|Hin] Hs.
  - rewrite Hs. eauto.
  - destruct (_parse_optional q s0) as [m0|t]; [eauto|].
    destruct (IH Hin Hs) as [m' ->]. eauto.
Qed.


Lemma classify_dashes (argv : list string) (toks : list (string * pattern)) :
  classify q argv = inr toks -> In "--" argv -> In ("--", pat_dash) toks.
Proof.
  revert toks. induction argv as [|s0 rest IH]; intros toks Hcl; [intros []|].
  apply classify_cons in Hcl as [[-> ->]|(Hne & t & ps & Ht & Hps & ->)].
  - intros _. now left.
  - intros [->|Hin]; [contradiction|]. right. now apply IH.
Qed.

End ScanFacts.

(* ===================================================================== *)
(** * Further properties of the script *)
(* ===================================================================== *)

Section Extras.
Import Py argparse tester.

Lemma accepts_scan (prog : string) (argv : list string) (args : gmap string value) :
  accepts prog argv args ->
  exists toks st',
    classify (parser prog) argv = inr toks /\
    scans toks (ParseState (default_namespace (parser prog)) [] []) st' /\
    missing_required (parser prog) st' = [] /\
    extras st' = [] /\
    namespace st' = args.
Proof.
  intros Ha. now destruct (parse_args_returns (parser prog) argv args _ _
                             (parser_long_flags prog) Ha) as [_ H].
Qed.

Lemma accepts_fields (prog : string) (argv : list string) (args : gmap string value) :
  accepts prog argv args ->
  (exists v, args !! "clone_name" = Some v /\ (v = EmptyList \/ exists x, v = Str x)) /\
  (exists v, args !! "clone_count" = Some v /\ (v = EmptyList \/ exists i, v = Int i)) /\
  args !! "greet" = Some (Bool true).
Proof.
  intros Ha. unfold accepts in Ha.
  destruct (tester_parse_cases prog argv (initial tt))
    as [(args' & Hp & _ & Hn & Hc & Hg & _)|[(Hp & _)|(m & Hp)]];
    rewrite Ha in Hp; [|discriminate..].
  injection Hp as <-. auto.
Qed.

(** A string is enough to reject a command line when it is ["--"] or an
    option the parser does not know. *)
Lemma stray_string_rejected (prog : string) (argv : list string) (s : string)
    (pt : pattern) (toks : list (string * pattern)) (args : gmap string value) :
  classify (parser prog) argv = inr toks ->
  In (s, pt) toks -> leftover pt -> pt <> pat_A ->
  ~ accepts prog argv args.
Proof.
  intros Hcl Hin Hl Hne Ha.
  destruct (accepts_scan prog argv args Ha) as (toks' & st' & Hcl' & Hsc & _ & Hx & _).
  rewrite Hcl in Hcl'. injection Hcl' as <-.
  destruct (scans_extras toks _ st' Hsc) as [_ H].
  specialize (H s pt Hin Hl Hne). rewrite Hx in H. destruct H.
Qed.

Lemma not_accepted_exit (prog : string) (argv : list string) :
  (forall args, ~ accepts prog argv args) ->
  given (parser prog) help_action argv = false ->
  exit_code (run prog argv) = 2 /\ out (run prog argv) = "" /\
  exists m, err (run prog argv) = [UsageError prog m].
Proof.
  intros Hno Hh. unfold run, accepts in *.
  destruct (tester_parse_cases prog argv (initial tt))
    as [(args & Hp & _)|[(_ & Hg)|(m & Hp)]].
  - now destruct (Hno args).
  - congruence.
  - rewrite (run_error prog argv m (initial tt) Hp). repeat split; eauto.
Qed.

(** Appending one more option to an accepted command line. *)
Lemma accepts_append (prog : string) (argv : list string) (args : gmap string value)
    (t : string) (tok : pattern) (st1 : parse_state -> parse_state) :
  accepts prog argv args ->
  classify (parser prog) [t] = inr [(t, tok)] ->
  (forall st, scans [(t, tok)] st (st1 st)) ->
  (forall st, extras (st1 st) = extras st) ->
  (forall st a, In a (seen_actions st) -> In a (seen_actions (st1 st))) ->
  exists st', namespace st' = args /\
              accepts prog (argv ++ [t]) (namespace (st1 st')).
Proof.
  intros Ha Ht Hsc1 Hx1 Hseen.
  destruct (accepts_scan prog argv args Ha) as (toks & st' & Hcl & Hsc & Hm & Hx & Hns).
  exists st'. split; [assumption|].
  assert (Hno : ~ In "--" argv).
  { intros Hd. apply (stray_string_rejected prog argv "--" pat_dash toks args Hcl);
      [now apply (classify_dashes (parser prog) argv)|exact I|discriminate|assumption]. }
  unfold accepts. apply (parse_args_of_scan (parser prog) _ (toks ++ [(t, tok)])).
  - rewrite (classify_app (parser prog) argv [t] toks Hno Hcl). now rewrite Ht.
  - apply (scans_app toks [(t, tok)] _ st'); auto.
  - apply missing_required_nil_iff. intros a Hin Hr.
    apply Hseen. now apply (proj1 (missing_required_nil_iff (parser prog) st') Hm).
  - now rewrite Hx1.
Qed.

(** X1.  A namespace the parser returns never holds a default: [greet]
    is [True], and [clone_name] and [clone_count] are not [None]. *)
Theorem accepted_namespace_has_no_default (prog : string) (argv : list string)
    (args : gmap string value) :
  accepts prog argv args ->
  args !! "greet" = Some (Bool true) /\
  (exists v, args !! "clone_name" = Some v /\ v <> NoneVal) /\
  (exists v, args !! "clone_count" = Some v /\ v <> NoneVal).
Proof.
  intros Ha.
  destruct (accepts_fields prog argv args Ha) as ((v1 & H1 & Hv1) & (v2 & H2 & Hv2) & Hg).
  split; [assumption|]. split.
  - exists v1. split; [assumption|]. destruct Hv1 as [->|[x ->]]; discriminate.
  - exists v2. split; [assumption|]. destruct Hv2 as [->|[i ->]]; discriminate.
Qed.

(** The theorem at work on abbreviated options. *)
Lemma accepted_namespace_has_no_default_witness :
  let argv := ["--clone_n"; "Bob"; "--clone_c"; "1"; "--gr"] in
  accepts "tester.py" argv (namespace_of "tester.py" argv) /\
  namespace_of "tester.py" argv !! "greet" = Some (Bool true).
Proof.
  cbv zeta.
  assert (Ha : accepts "tester.py" ["--clone_n"; "Bob"; "--clone_c"; "1"; "--gr"]
                 (namespace_of "tester.py" ["--clone_n"; "Bob"; "--clone_c"; "1"; "--gr"]))
    by (vm_compute; reflexivity).
  split; [exact Ha|].
  exact (proj1 (accepted_namespace_has_no_default "tester.py" _ _ Ha)).
Defined.

(** X2.  The last occurrence of an option wins: adding
    [--clone_count=s], for an integer literal [s], to an accepted command
    line gives an accepted command line whose count is that of [s],
    everything else unchanged; likewise for [--clone_name=X]. *)
Theorem last_occurrence_wins (prog : string) (argv : list string)
    (args : gmap string value) :
  accepts prog argv args ->
  (forall s N, int s = Some N ->
     accepts prog (argv ++ ["--clone_count=" +:+ s]) (<["clone_count" := Int N]> args)) /\
  (forall X, X <> "--" ->
     accepts prog (argv ++ ["--clone_name=" +:+ X]) (<["clone_name" := Str X]> args)).
Proof.
  intros Ha. split.
  - intros s N Hs.
    assert (Hs' : String.eqb s "--" = false)
      by (apply String.eqb_neq; intros ->; discriminate Hs).
    destruct (accepts_append prog argv args ("--clone_count=" +:+ s)
                (pat_O (OptionTuple (Some clone_count_action) "--clone_count" (Some s)))
                (fun st => stored st clone_count_action (Int N)) Ha)
      as (st' & <- & H); try exact H.
    + vm_compute. reflexivity.
    + intros st. eapply scans_explicit; [reflexivity| |constructor].
      unfold converted. rewrite Hs'. cbn. now rewrite Hs.
    + reflexivity.
    + intros st a Hin. now right.
  - intros X HX. apply String.eqb_neq in HX.
    destruct (accepts_append prog argv args ("--clone_name=" +:+ X)
                (pat_O (OptionTuple (Some clone_name_action) "--clone_name" (Some X)))
                (fun st => stored st clone_name_action (Str X)) Ha)
      as (st' & <- & H); try exact H.
    + vm_compute. reflexivity.
    + intros st. eapply scans_explicit; [reflexivity| |constructor].
      unfold converted. now rewrite HX.
    + reflexivity.
    + intros st a Hin. now right.
Qed.

(** The theorem at work: a count of 5 overridden by 1. *)
Lemma last_occurrence_wins_witness :
  let argv := ["-c"; "Bob"; "-n"; "5"; "--greet"] in
  accepts "tester.py" argv (namespace_of "tester.py" argv) /\
  int "1" = Some 1 /\
  out (run "tester.py" (argv ++ ["--clone_count=1"])) = text_of ["👽 says: Hello, Bob0!"].
Proof.
  cbv zeta.
  assert (Ha : accepts "tester.py" ["-c"; "Bob"; "-n"; "5"; "--greet"]
                 (namespace_of "tester.py" ["-c"; "Bob"; "-n"; "5"; "--greet"]))
    by (vm_compute; reflexivity).
  assert (Hi : int "1" = Some 1) by (vm_compute; reflexivity).
  split; [exact Ha|]. split; [exact Hi|].
  assert (Hb : accepts "tester.py"
                 (["-c"; "Bob"; "-n"; "5"; "--greet"] ++ ["--clone_count=1"])
                 (<["clone_count" := Int 1]>
                    (namespace_of "tester.py" ["-c"; "Bob"; "-n"; "5"; "--greet"])))
    by exact (proj1 (last_occurrence_wins "tester.py" _ _ Ha) "1" 1 Hi).
  rewrite (out_accepted "tester.py" _ _ (Str "Bob") 1 Hb);
    vm_compute; reflexivity.
Defined.

(** X3.  Repeating the flag changes nothing: an accepted command line
    followed by one more [--greet] is accepted with the same
    namespace. *)
Theorem greet_is_idempotent (prog : string) (argv : list string)
    (args : gmap string value) :
  accepts prog argv args ->
  accepts prog (argv ++ ["--greet"]) args /\
  run prog (argv ++ ["--greet"]) = run prog argv.
Proof.
  intros Ha.
  assert (Hb : accepts prog (argv ++ ["--greet"]) args).
  { destruct (accepts_append prog argv args "--greet"
                (pat_O (OptionTuple (Some greet_action) "--greet" None))
                (fun st => stored st greet_action (Bool true)) Ha)
      as (st' & Hns & H).
    - vm_compute. reflexivity.
    - intros st. apply scans_flag; [reflexivity|constructor].
    - reflexivity.
    - intros st a Hin. now right.
    - cbn [stored namespace greet_action dest setattr] in H. rewrite Hns in H.
      destruct (accepts_fields prog argv args Ha) as (_ & _ & Hg).
      now rewrite (insert_id args "greet" (Bool true) Hg) in H. }
  split; [exact Hb|].
  unfold run, run_from, main, bind. unfold accepts in Ha, Hb. now rewrite Ha, Hb.
Qed.

(** The theorem at work on [-c Bob -n 2 --greet]. *)
Lemma greet_is_idempotent_witness :
  let argv := ["-c"; "Bob"; "-n"; "2"; "--greet"] in
  accepts "tester.py" argv (namespace_of "tester.py" argv) /\
  run "tester.py" (argv ++ ["--greet"]) = run "tester.py" argv.
Proof.
  cbv zeta.
  assert (Ha : accepts "tester.py" ["-c"; "Bob"; "-n"; "2"; "--greet"]
                 (namespace_of "tester.py" ["-c"; "Bob"; "-n"; "2"; "--greet"]))
    by (vm_compute; reflexivity).
  split; [exact Ha|].
  exact (proj2 (greet_is_idempotent "tester.py" _ _ Ha)).
Defined.

(** X4.  The end-of-options marker is not accepted: the parser has no
    positional argument, so a command line that contains ["--"] is never
    accepted, and unless it asks for help the run is a usage error. *)
Theorem double_dash_is_rejected (prog : string) (argv : list string) :
  In "--" argv ->
  (forall args, ~ accepts prog argv args) /\
  (given (parser prog) help_action argv = false ->
   exit_code (run prog argv) = 2 /\ out (run prog argv) = "").
Proof.
  intros Hd.
  assert (Hno : forall args, ~ accepts prog argv args).
  { intros args Ha.
    destruct (accepts_scan prog argv args Ha) as (toks & st' & Hcl & _).
    apply (stray_string_rejected prog argv "--" pat_dash toks args Hcl);
      [now apply (classify_dashes (parser prog) argv)|exact I|discriminate|assumption]. }
  split; [exact Hno|].
  intros Hh. destruct (not_accepted_exit prog argv Hno Hh) as (H1 & H2 & _). auto.
Qed.

(** The theorem at work on an otherwise valid command line. *)
Lemma double_dash_is_rejected_witness :
  let argv := ["-c"; "Bob"; "-n"; "2"; "--greet"; "--"] in
  In "--" argv /\
  given (parser "tester.py") help_action argv = false /\
  exit_code (run "tester.py" argv) = 2.
Proof.
  cbv zeta.
  assert (Hd : In "--" ["-c"; "Bob"; "-n"; "2"; "--greet"; "--"]) by (cbn; auto 10).
  assert (Hh : given (parser "tester.py") help_action
                 ["-c"; "Bob"; "-n"; "2"; "--greet"; "--"] = false)
    by (vm_compute; reflexivity).
  split; [exact Hd|]. split; [exact Hh|].
  exact (proj1 (proj2 (double_dash_is_rejected "tester.py" _ Hd) Hh)).
Defined.






Lemma prefix_nil_inv (s : string) : String.prefix s "" = true -> s = "".
Proof. destruct s; [reflexivity|discriminate]. Qed.

Lemma prefix_cons_inv (c : ascii) (os s : string) :
  String.prefix s (String c os) = true ->
  s = "" \/ exists s', s = String c s' /\ String.prefix s' os = true.
Proof.
  destruct s as [|x s']; [now left|].
  cbn [String.prefix]. destruct (ascii_dec x c) as [->|_]; [|discriminate].
  right. eauto.
Qed.

Ltac enum_prefixes H :=
  repeat (apply prefix_cons_inv in H as [->|(? & -> & H)]);
  try (apply prefix_nil_inv in H as ->).

(** X7.  [--clone_name] and [--clone_count] share their first eight
    characters: an abbreviation that stops within them is ambiguous, and
    its presence among the options makes the run a usage error, even
    after [-h]. *)
Theorem shared_prefix_is_ambiguous (prog : string) (argv : list string) (s : string) :
  String.prefix s "--clone_" = true ->
  (3 <= String.length s)%nat ->
  In s (option_part argv) ->
  _parse_optional (parser prog) s
  = inl (AmbiguousOption s ["--clone_name"; "--clone_count"]) /\
  exit_code (run prog argv) = 2 /\
  out (run prog argv) = "" /\
  exists m, err (run prog argv) = [UsageError prog m].
Proof.
  intros Hp Hlen Hin.
  assert (Hs : _parse_optional (parser prog) s
               = inl (AmbiguousOption s ["--clone_name"; "--clone_count"])).
  { enum_prefixes Hp; cbn in Hlen; try lia; vm_compute; reflexivity. }
  split; [exact Hs|].
  destruct (classify_fails (parser prog) argv s _ Hin Hs) as [m Hcl].
  unfold run, run_from, main, parse_args, parse_known_args, catch_argument_error,
    _parse_known_args, bind.
  rewrite Hcl. cbn. eauto.
Qed.

(** The theorem at work on [--clone] behind [-h]. *)
Lemma shared_prefix_is_ambiguous_witness :
  String.prefix "--clone" "--clone_" = true /\
  (3 <= String.length "--clone")%nat /\
  In "--clone" (option_part ["-h"; "--clone"; "Bob"]) /\
  exit_code (run "tester.py" ["-h"; "--clone"; "Bob"]) = 2.
Proof.
  assert (Hp : String.prefix "--clone" "--clone_" = true) by reflexivity.
  assert (Hl : (3 <= String.length "--clone")%nat) by (cbn; lia).
  assert (Hin : In "--clone" (option_part ["-h"; "--clone"; "Bob"]))
    by (vm_compute; auto).
  split; [exact Hp|]. split; [exact Hl|]. split; [exact Hin|].
  exact (proj1 (proj2 (shared_prefix_is_ambiguous "tester.py" _ _ Hp Hl Hin))).
Defined.

(** X8.  Any other abbreviation of a long option, of three characters or
    more, is read as that option. *)
Theorem abbreviation_names_option (prog : string) (os s : string) (a : Action) :
  In (os, a) (_option_string_actions (parser prog)) ->
  is_long os = true ->
  String.prefix s os = true ->
  (3 <= String.length s)%nat ->
  String.prefix s "--clone_" = false ->
  _parse_optional (parser prog) s = inr (Some (OptionTuple (Some a) os None)).
Proof.
  intros Hin Hlong Hp Hlen Hamb. cbn in Hin.
  repeat (destruct Hin as [[= <- <-]|Hin]; [try discriminate Hlong|]);
    [ | | | |destruct Hin];
    enum_prefixes Hp; cbn in Hlen; try lia; try discriminate Hamb;
    vm_compute; reflexivity.
Qed.

(** The theorem at work on [--gre]. *)
Lemma abbreviation_names_option_witness :
  In ("--greet", greet_action) (_option_string_actions (parser "tester.py")) /\
  String.prefix "--gre" "--greet" = true /\
  _parse_optional (parser "tester.py") "--gre"
  = inr (Some (OptionTuple (Some greet_action) "--greet" None)).
Proof.
  assert (Hin : In ("--greet", greet_action) (_option_string_actions (parser "tester.py")))
    by (vm_compute; auto 10).
  assert (Hp : String.prefix "--gre" "--greet" = true) by reflexivity.
  split; [exact Hin|]. split; [exact Hp|].
  apply (abbreviation_names_option "tester.py" "--greet" "--gre" greet_action Hin);
    [reflexivity|exact Hp|cbn; lia|reflexivity].
Defined.

Lemma count_append (c : ascii) (a b : string) :
  count c (a +:+ b) = (count c a + count c b)%nat.
Proof.
  induction a as [|x a IH]; [reflexivity|].
  rewrite append_cons. cbn [count]. rewrite IH. lia.
Qed.

Lemma count_absent (c : ascii) (s : string) :
  contains c s = false -> count c s = O.
Proof.
  induction s as [|x s IH]; [reflexivity|].
  cbn [contains count]. intros H. apply orb_false_elim in H as [-> Hs].
  now rewrite IH.
Qed.

(** A record ended by a line feed makes one line more than it holds line
    feeds. *)
Lemma lines_from_any_record (r cur rest : string) :
  length (lines_from cur (r +:+ String LF rest))
  = (count LF r + 1 + length (lines_from "" rest))%nat.
Proof.
  revert cur. induction r as [|c r IH]; intros cur.
  - rewrite append_nil_l. cbn [lines_from count]. now rewrite Ascii.eqb_refl.
  - rewrite append_cons. cbn [lines_from count].
    destruct (Ascii.eqb c LF); cbn [length]; rewrite IH; lia.
Qed.

Lemma lines_text_of_length (l : list string) :
  length (lines (text_of l)) = list_sum (map (fun r => (count LF r + 1)%nat) l).
Proof.
  unfold lines. induction l as [|r l IH]; [reflexivity|].
  rewrite text_of_cons, lines_from_any_record, IH. cbn [map]. unfold list_sum. cbn [fold_right]. lia.
Qed.

Lemma list_sum_constant (k : nat) (l : list nat) :
  Forall (fun x => x = k) l -> list_sum l = (length l * k)%nat.
Proof.
  induction 1 as [|x l -> _ IH]; [reflexivity|].
  change (list_sum (k :: l)) with (k + list_sum l)%nat. rewrite IH. cbn [length]. lia.
Qed.

(** X9.  The number of lines on standard output: a valid invocation with
    name [X] and count [N] writes [N] times one line more than [X] holds
    line feeds. *)
Theorem line_count (prog : string) (argv : list string) (X : string) (N : Z) :
  valid_invocation prog argv X N ->
  length (lines (out (run prog argv))) = (Z.to_nat N * (count LF X + 1))%nat.
Proof.
  intros (args & Hp & Hname & Hcount & _).
  rewrite (out_accepted prog argv args (Str X) N Hp Hcount Hname).
  unfold out. cbn [final stdout]. rewrite lines_text_of_length.
  rewrite (list_sum_constant (count LF X + 1)).
  - unfold greetings. rewrite !length_map, length_indices. f_equal. lia.
  - apply Forall_forall. intros x Hx.
    apply list_elem_of_In, in_map_iff in Hx as (r & <- & Hr).
    unfold greetings in Hr. apply in_map_iff in Hr as (i & <- & _).
    unfold greeting. cbn [format]. rewrite !count_append.
    rewrite (count_absent LF (str i) (str_no_LF i)).
    change (count LF greeting_prefix) with O. change (count LF "!") with O. lia.
Qed.

(** The theorem at work on a name of three lines and a count of 2. *)
Lemma line_count_witness :
  let X := String "a" (String LF (String "b" (String LF "c"))) in
  let argv := ["-c"; X; "-n"; "2"; "--greet"] in
  valid_invocation "tester.py" argv X 2 /\
  length (lines (out (run "tester.py" argv))) = 6%nat.
Proof.
  cbv zeta.
  assert (Hv : valid_invocation "tester.py"
                 ["-c"; String "a" (String LF (String "b" (String LF "c")));
                  "-n"; "2"; "--greet"]
                 (String "a" (String LF (String "b" (String LF "c")))) 2).
  { exists (namespace_of "tester.py"
              ["-c"; String "a" (String LF (String "b" (String LF "c")));
               "-n"; "2"; "--greet"]).
    repeat split; vm_compute; reflexivity. }
  split; [exact Hv|].
  exact (line_count "tester.py" _ _ 2 Hv).
Defined.

Lemma str_inj (i j : Z) : str i = str j -> i = j.
Proof.
  unfold str. intros H. apply DecimalZ.to_int_inj.
  assert (Hn : forall z, Z.to_int z <> Decimal.Pos Decimal.Nil
                         /\ Z.to_int z <> Decimal.Neg Decimal.Nil).
  { intros [|p|p]; cbn; split; try discriminate;
      intros [= Hp]; now apply (to_uint_nonnil p). }
  destruct (Hn i) as [Hi1 Hi2], (Hn j) as [Hj1 Hj2].
  pose proof (NilZero.isi _ Hi1 Hi2) as Hi. pose proof (NilZero.isi _ Hj1 Hj2) as Hj.
  rewrite H in Hi. rewrite Hi in Hj. now injection Hj.
Qed.

Lemma append_inj_l (a b c : string) : a +:+ b = a +:+ c -> b = c.
Proof.
  induction a as [|x a IH]; [auto|]. rewrite !append_cons. intros [= H]. auto.
Qed.

Lemma append_inj_r (a b : string) (c : ascii) :
  a +:+ String c "" = b +:+ String c "" -> a = b.
Proof.
  revert b. induction a as [|x a IH]; intros [|y b]; rewrite ?append_cons, ?append_nil_l.
  - reflexivity.
  - intros [= _ H]. destruct b; discriminate H.
  - intros [= _ H]. destruct a; discriminate H.
  - intros [= -> H]. f_equal. auto.
Qed.

Lemma greeting_inj (v : value) (i j : Z) : greeting v i = greeting v j -> i = j.
Proof.
  unfold greeting. intros H.
  apply append_inj_l, append_inj_l, append_inj_r in H. now apply str_inj.
Qed.

Lemma indices_NoDup (n : Z) : List.NoDup (indices n).
Proof.
  unfold indices. apply Finite.Injective_map_NoDup; [|apply seq_NoDup].
  intros a b. apply Nat2Z.inj.
Qed.

(** X10.  No greeting is written twice: the greetings of a run are
    pairwise distinct, whatever the name, and for a valid invocation
    with a name free of line feeds so are the lines of standard
    output. *)
Theorem greetings_are_distinct :
  (forall v n, List.NoDup (greetings v n)) /\
  (forall prog argv X N,
     valid_invocation prog argv X N ->
     contains LF X = false ->
     List.NoDup (lines (out (run prog argv)))).
Proof.
  assert (H : forall v n, List.NoDup (greetings v n)).
  { intros v n. unfold greetings.
    apply Finite.Injective_map_NoDup; [|apply indices_NoDup].
    intros i j. apply greeting_inj. }
  split; [exact H|].
  intros prog argv X N (args & Hp & Hname & Hcount & _) HX.
  rewrite (out_accepted prog argv args (Str X) N Hp Hcount Hname).
  unfold out. cbn [final stdout].
  rewrite (lines_text_of _ (greetings_no_LF X N HX)). apply H.
Qed.

(** The theorem at work on [-c Bob -n 12 --greet]. *)
Lemma greetings_are_distinct_witness :
  let argv := ["-c"; "Bob"; "-n"; "12"; "--greet"] in
  valid_invocation "tester.py" argv "Bob" 12 /\
  contains LF "Bob" = false /\
  List.NoDup (lines (out (run "tester.py" argv))).
Proof.
  cbv zeta.
  assert (Hv : valid_invocation "tester.py" ["-c"; "Bob"; "-n"; "12"; "--greet"] "Bob" 12).
  { exists (namespace_of "tester.py" ["-c"; "Bob"; "-n"; "12"; "--greet"]).
    repeat split; vm_compute; reflexivity. }
  split; [exact Hv|]. split; [reflexivity|].
  exact (proj2 greetings_are_distinct "tester.py" _ "Bob" 12 Hv eq_refl).
Defined.

(** X11.  Every name and every count can be passed: for a name other
    than ["--"] and a count whose numeral stays within the digit limit
    of [int], the long options with the name and the numeral attached run
    to status 0 and write the greetings of that name and count. *)
Theorem every_name_and_count_runs (prog X : string) (N : Z) :
  X <> "--" ->
  (String.length (str (Z.abs N)) <= int_max_str_digits)%nat ->
  int (str N) = Some N /\
  run prog ["--clone_name=" +:+ X; "--clone_count=" +:+ str N; "--greet"]
  = Outcome (World unit (text_of (greetings (Str X) N)) [] tt) 0.
Proof.
  intros HX HN. pose proof (int_str N HN) as Hi. split; [exact Hi|].
  destruct (long_form_valid prog X (str N) N HX Hi) as (args & Hp & Hname & Hcount & _).
  exact (out_accepted prog _ args (Str X) N Hp Hcount Hname).
Qed.

(** The theorem at work on a name that looks like an option. *)
Lemma every_name_and_count_runs_witness :
  "--greet" <> "--" /\
  (String.length (str (Z.abs 2)) <= int_max_str_digits)%nat /\
  out (run "tester.py" ["--clone_name=--greet"; "--clone_count=2"; "--greet"])
  = text_of ["👽 says: Hello, --greet0!"; "👽 says: Hello, --greet1!"].
Proof.
  assert (HX : "--greet" <> "--") by discriminate.
  assert (HN : (String.length (str (Z.abs 2)) <= int_max_str_digits)%nat)
    by (vm_compute; lia).
  split; [exact HX|]. split; [exact HN|].
  assert (Hr : run "tester.py" ["--clone_name=--greet"; "--clone_count=2"; "--greet"]
               = Outcome (World unit (text_of (greetings (Str "--greet") 2)) [] tt) 0)
    by exact (proj2 (every_name_and_count_runs "tester.py" "--greet" 2 HX HN)).
  rewrite Hr. vm_compute. reflexivity.
Defined.

Lemma three_groups_accepted (prog : string) (g1 g2 g3 : list string)
    (t1 t2 t3 : list (string * pattern)) (f1 f2 f3 : parse_state -> parse_state) :
  group_ok prog g1 t1 f1 -> group_ok prog g2 t2 f2 -> group_ok prog g3 t3 f3 ->
  missing_required (parser prog)
    (f3 (f2 (f1 (ParseState (default_namespace (parser prog)) [] [])))) = [] ->
  accepts prog (concat [g1; g2; g3])
    (namespace (f3 (f2 (f1 (ParseState (default_namespace (parser prog)) [] []))))).
Proof.
  intros (Hn1 & Hc1 & Hs1 & Hx1) (Hn2 & Hc2 & Hs2 & Hx2) (Hn3 & Hc3 & Hs3 & Hx3) Hm.
  unfold accepts. cbn [concat]. rewrite app_nil_r.
  apply (parse_args_of_scan (parser prog) _ (t1 ++ t2 ++ t3)).
  - rewrite (classify_app (parser prog) g1 (g2 ++ g3) t1 Hn1 Hc1).
    rewrite (classify_app (parser prog) g2 g3 t2 Hn2 Hc2). now rewrite Hc3.
  - eapply scans_app; [apply Hs1|]. eapply scans_app; [apply Hs2|apply Hs3].
  - exact Hm.
  - now rewrite Hx3, Hx2, Hx1.
Qed.

(** X12.  The three options may come in any order: every arrangement of
    [-c X], [-n s] and [--greet], for a name and an integer literal that
    read as arguments, is a valid invocation with that name and
    count. *)
Theorem any_order (prog X s : string) (N : Z) (groups : list (list string)) :
  groups ≡ₚ [["-c"; X]; ["-n"; s]; ["--greet"]] ->
  X <> "--" -> _parse_optional (parser prog) X = inr None ->
  _parse_optional (parser prog) s = inr None -> int s = Some N ->
  valid_invocation prog (concat groups) X N.
Proof.
  intros Hperm HX HpX Hps Hs.
  assert (Hs' : s <> "--") by (intros ->; discriminate Hs).
  assert (Hg1 : group_ok prog ["-c"; X]
                  [("-c", pat_O (OptionTuple (Some clone_name_action) "-c" None));
                   (X, pat_A)]
                  (fun st => stored st clone_name_action (Str X))).
  { split; [intros [H|[H|[]]]; [discriminate H|congruence]|]. split; [|split].
    - cbn [classify]. apply String.eqb_neq in HX. rewrite HX, HpX. reflexivity.
    - intros st. eapply scans_following; [reflexivity| |constructor].
      unfold converted. apply String.eqb_neq in HX. now rewrite HX.
    - reflexivity. }
  assert (Hg2 : group_ok prog ["-n"; s]
                  [("-n", pat_O (OptionTuple (Some clone_count_action) "-n" None));
                   (s, pat_A)]
                  (fun st => stored st clone_count_action (Int N))).
  { split; [intros [H|[H|[]]]; [discriminate H|congruence]|]. split; [|split].
    - cbn [classify]. apply String.eqb_neq in Hs'. rewrite Hs', Hps. reflexivity.
    - intros st. eapply scans_following; [reflexivity| |constructor].
      unfold converted. apply String.eqb_neq in Hs'. rewrite Hs'. cbn. now rewrite Hs.
    - reflexivity. }
  assert (Hg3 : group_ok prog ["--greet"]
                  [("--greet", pat_O (OptionTuple (Some greet_action) "--greet" None))]
                  (fun st => stored st greet_action (Bool true))).
  { split; [intros [H|[]]; discriminate H|]. split; [|split].
    - reflexivity.
    - intros st. apply scans_flag; [reflexivity|constructor].
    - reflexivity. }
  symmetry in Hperm. apply permutations_Permutation in Hperm.
  cbv in Hperm. apply list_elem_of_In in Hperm. cbn [In] in Hperm.
  destruct Hperm as [<-|[<-|[<-|[<-|[<-|[<-|[]]]]]]];
    eexists; (split; [eapply three_groups_accepted; eauto; reflexivity|]);
    repeat split; reflexivity.
Qed.

(** The theorem at work with the flag first and the name last. *)
Lemma any_order_witness :
  [["--greet"]; ["-n"; "2"]; ["-c"; "Bob"]] ≡ₚ [["-c"; "Bob"]; ["-n"; "2"]; ["--greet"]] /\
  int "2" = Some 2 /\
  valid_invocation "tester.py" ["--greet"; "-n"; "2"; "-c"; "Bob"] "Bob" 2.
Proof.
  assert (Hp : [["--greet"]; ["-n"; "2"]; ["-c"; "Bob"]]
               ≡ₚ [["-c"; "Bob"]; ["-n"; "2"]; ["--greet"]]).
  { apply permutations_Permutation. vm_compute. set_solver. }
  assert (Hi : int "2" = Some 2) by (vm_compute; reflexivity).
  split; [exact Hp|]. split; [exact Hi|].
  apply (any_order "tester.py" "Bob" "2" 2 _ Hp);
    [discriminate|vm_compute; reflexivity|vm_compute; reflexivity|exact Hi].
Defined.

Lemma negative_number_is_argument (prog s : string) :
  _negative_number_matcher s = true ->
  _parse_optional (parser prog) s = inr None.
Proof.
  intros H. destruct s as [|c0 r]; [discriminate H|].
  destruct c0 as [[] [] [] [] [] [] [] []]; try discriminate H.
  destruct r as [|c1 r1]; [discriminate H|].
  assert (Hhas : _has_negative_number_optionals (parser prog) = false) by reflexivity.
  destruct c1 as [[] [] [] [] [] [] [] []];
    first [ solve [destruct r1; vm_compute in H; discriminate H]
          | unfold _parse_optional; rewrite H, Hhas; cbn -[String.append];
            destruct (contains "=" r1); [destruct (split1 "=" r1)|]; reflexivity ].
Qed.

Lemma scan_digits_nonneg (s : string) (acc : Z) (n : nat) (b : bool)
    (v : Z) (k : nat) (rest : string) :
  0 <= acc -> scan_digits s acc n b = Some (v, k, rest) -> 0 <= v.
Proof.
  revert acc n b. induction s as [|c s IH]; intros acc n b Hacc; cbn [scan_digits].
  - destruct b; [discriminate|]. intros [= <- _ _]. exact Hacc.
  - destruct (digit_value c) as [d|] eqn:Hd.
    + apply IH. unfold digit_value in Hd.
      destruct (_ && _)%bool eqn:Hb; [|discriminate]. injection Hd as <-.
      apply andb_prop in Hb as [Hb _]. apply Nat.leb_le in Hb. lia.
    + destruct (Ascii.eqb c "_").
      * destruct b; [discriminate|]. now apply IH.
      * destruct b; [discriminate|]. intros [= <- _ _]. exact Hacc.
Qed.

Lemma int_of_negative (s : string) (N : Z) :
  _negative_number_matcher s = true -> int s = Some N -> N <= 0.
Proof.
  intros Hm. destruct s as [|c0 r]; [discriminate Hm|].
  destruct c0 as [[] [] [] [] [] [] [] []]; try discriminate Hm.
  unfold int. cbn [lstrip]. change (isspace "-") with false. cbv iota.
  destruct r as [|c1 r1]; [discriminate|].
  destruct (Ascii.eqb_spec c1 "_") as [->|Hne].
  - discriminate.
  - assert (Hm' : match String c1 r1 with String "_" _ => None (A := Z)
                  | _ => match scan_digits (String c1 r1) 0 0 false with
                         | Some (v, n, rest) =>
                             if Nat.eqb n 0 then None
                             else if Nat.ltb int_max_str_digits n then None
                             else if all_space rest then Some (- v) else None
                         | None => None end end = Some N -> N <= 0).
    { destruct c1 as [[] [] [] [] [] [] [] []]; try (now contradiction Hne);
        destruct (scan_digits _ 0 0 false) as [[[v n] rest]|] eqn:Hsc; try discriminate;
        destruct (Nat.eqb n 0); try discriminate;
        destruct (Nat.ltb int_max_str_digits n); try discriminate;
        destruct (all_space rest); try discriminate;
        intros [= <-]; apply scan_digits_nonneg in Hsc; lia. }
    exact Hm'.
Qed.

(** X13.  A negative number may follow [-n]: a string that looks like a
    negative number is read as an argument, not as an option, so with an
    integer literal of that form the command line is valid, the count is
    not positive and the run writes nothing. *)
Theorem negative_count_is_accepted (prog X s : string) (N : Z) :
  X <> "--" -> _parse_optional (parser prog) X = inr None ->
  _negative_number_matcher s = true -> int s = Some N ->
  valid_invocation prog ["-c"; X; "-n"; s; "--greet"] X N /\
  N <= 0 /\
  run prog ["-c"; X; "-n"; s; "--greet"] = Outcome (initial tt) 0.
Proof.
  intros HX HpX Hm Hs.
  pose proof (negative_number_is_argument prog s Hm) as Hps.
  pose proof (int_of_negative s N Hm Hs) as HN.
  pose proof (short_form_valid prog X s N HX HpX Hps Hs) as Hv.
  split; [exact Hv|]. split; [exact HN|].
  destruct Hv as (args & Hp & Hname & Hcount & _).
  rewrite (out_accepted prog _ args (Str X) N Hp Hcount Hname).
  unfold greetings. now rewrite (indices_nonpositive N HN).
Qed.

(** The theorem at work on [-n -07]. *)
Lemma negative_count_is_accepted_witness :
  "Bob" <> "--" /\
  _negative_number_matcher "-07" = true /\
  int "-07" = Some (-7) /\
  run "tester.py" ["-c"; "Bob"; "-n"; "-07"; "--greet"] = Outcome (initial tt) 0.
Proof.
  assert (HX : "Bob" <> "--") by discriminate.
  assert (Hm : _negative_number_matcher "-07" = true) by (vm_compute; reflexivity).
  assert (Hs : int "-07" = Some (-7)) by (vm_compute; reflexivity).
  split; [exact HX|]. split; [exact Hm|]. split; [exact Hs|].
  apply (negative_count_is_accepted "tester.py" "Bob" "-07" (-7) HX); auto.
Defined.





End Extras.
